(** * Product reconciliation engine: a shallow embedding of the Python
    sketches of [Task 4/data_at_scale_design.md]

    The design document contains five executable fragments that the
    specification talks about:

    - [SCHEMA_MAPPINGS] and [SchemaHarmonizer.harmonize_record],
    - [ProductDeduplicator.deduplicate_products],
    - [IdempotentProcessor.process_batch_idempotent],
    - [ProductServingLayer.get_product],
    - [ProductDataOrchestrator.run_pipeline].

    Python dictionaries are [gmap]s, Python sets are [gset]s, a raised
    exception is the left injection of a sum, and a method that mutates
    [self] or an external collaborator is a function in the state and
    exception monad [Eff].  Methods that the document calls but does not
    define are the fields of an interface class, one class per Python
    class. *)

From stdpp Require Import base option list gmap strings pretty fin_maps.

Open Scope string_scope.
Open Scope list_scope.

(** ** Part I: definitions *)

(** *** Exceptions and effects *)

(** A raised Python exception, reduced to the name of its class. *)
Inductive Exception : Type :=
  | Raised (kind : string).

#[global] Instance Exception_eq_dec : EqDecision Exception.
Proof. solve_decision. Defined.

(** Whether the class derives from [Exception].  The classes below derive
    from [BaseException] only, and an [except Exception] clause lets them
    pass. *)
Definition is_Exception (e : Exception) : bool :=
  match e with
  | Raised kind =>
      bool_decide (kind ∉ ["CancelledError"; "KeyboardInterrupt"; "SystemExit";
                           "GeneratorExit"])
  end.

(** [Eff S A]: a computation over a mutable state [S] that either returns
    an [A] or raises.  As in Python, the mutations made before a [raise]
    stay. *)
Definition Eff (S A : Type) : Type := S → (Exception + A) * S.

Module Eff.

Definition ret {S A} (a : A) : Eff S A := λ s, (inr a, s).

Definition raise {S A} (e : Exception) : Eff S A := λ s, (inl e, s).

Definition bind {S A B} (m : Eff S A) (k : A → Eff S B) : Eff S B :=
  λ s, match m s with
       | (inr a, s') => k a s'
       | (inl e, s') => (inl e, s')
       end.

(** [try: m except Exception as e: h e]: the handler runs for the classes
    that derive from [Exception]; any other exception leaves the statement
    as it was raised. *)
Definition try_except {S A} (m : Eff S A) (h : Exception → Eff S A) : Eff S A :=
  λ s, match m s with
       | (inr a, s') => (inr a, s')
       | (inl e, s') => if is_Exception e then h e s' else (inl e, s')
       end.

Definition get {S} : Eff S S := λ s, (inr s, s).

Definition modify {S} (f : S → S) : Eff S unit := λ s, (inr tt, f s).

(** Run a computation that lives on a component [T] of the state. *)
Definition zoom {S T A} (proj : S → T) (upd : T → S → S) (m : Eff T A) : Eff S A :=
  λ s, let '(r, t') := m (proj s) in (r, upd t' s).

End Eff.

Declare Scope eff_scope.
Delimit Scope eff_scope with eff.
Notation "x <~ m ;; k" := (Eff.bind m (λ x, k))
  (at level 100, m at next level, right associativity) : eff_scope.
Notation "m ;;; k" := (Eff.bind m (λ _, k))
  (at level 100, right associativity) : eff_scope.

(** *** 1.3 Schema harmonization *)

Module Harmonizer.

(** What [SchemaHarmonizer] expects from its environment: the type of field
    values and the method [transform_value], which the document calls but
    does not define.  It may raise (a coercion can fail). *)
Class Coercions := {
  Value : Type;
  transform_value : Value → string → Exception + Value;
}.

(** The inner dictionaries are association lists in source order, because
    [harmonize_record] iterates over [mapping.items()]. *)
Definition SCHEMA_MAPPINGS : gmap string (list (string * string)) :=
  {[ "products_v1" := [ ("product_id", "id");
                        ("product_name", "title");
                        ("cost", "price");
                        ("product_category", "category") ];
     "items_v2" := [ ("item_id", "id");
                     ("item_title", "title");
                     ("item_price", "price");
                     ("item_cat", "category") ] ]}.

(** [SCHEMA_MAPPINGS.get(source_schema, {})] *)
Definition schema_mapping (source_schema : string) : list (string * string) :=
  default [] (SCHEMA_MAPPINGS !! source_schema).

Section harmonize.
Context `{Coercions}.

(** The body of the [for target_field, source_field in mapping.items()]
    loop, with the dictionary under construction as accumulator. *)
Fixpoint harmonize_items (items : list (string * string))
    (record harmonized : gmap string Value) : Exception + gmap string Value :=
  match items with
  | [] => inr harmonized
  | (target_field, source_field) :: rest =>
      match record !! source_field with
      | Some v =>
          match transform_value v target_field with
          | inr v' => harmonize_items rest record (<[target_field := v']> harmonized)
          | inl e => inl e
          end
      | None => harmonize_items rest record harmonized
      end
  end.

(** [SchemaHarmonizer.harmonize_record] *)
Definition harmonize_record (record : gmap string Value) (source_schema : string)
    : Exception + gmap string Value :=
  let mapping := schema_mapping source_schema in
  harmonize_items mapping record ∅.
End harmonize.

(** A coercion that never fails and leaves values alone, over strings. *)
Definition plain_coercions : Coercions :=
  {| Value := string; transform_value := λ v _, inr v |}.

End Harmonizer.

(** *** 1.2 Multi-stage deduplication *)

Module Deduplicator.

(** The four methods that [deduplicate_products] calls and the document
    leaves undefined.  A stage sees its argument only; it may raise.  The
    probabilistic scoring model ([self.ml_model]) is reachable through
    [ml_entity_resolution] alone, so a failure of the scoring capability is
    this method raising. *)
Class Stages := {
  Product : Type;
  Master : Type;
  find_exact_matches : list Product → Exception + list (Product * Product);
  find_fuzzy_matches : list Product → Exception + list (Product * Product);
  ml_entity_resolution : list Product → Exception + list (Product * Product);
  create_master_records :
    list (Product * Product) → list (Product * Product) → list (Product * Product) →
    Exception + list Master;
}.

Section dedup.
Context `{Stages}.

(** One entry per method call, with the arguments of the call. *)
Inductive Call : Type :=
  | FindExact (products_batch : list Product)
  | FindFuzzy (products_batch : list Product)
  | MlResolve (products_batch : list Product)
  | CreateMasters (exact_matches fuzzy_matches ml_matches : list (Product * Product)).

(** A method call: it is recorded, then returns or raises. *)
Definition call {A} (c : Call) (outcome : Exception + A) : Eff (list Call) A :=
  λ log, (outcome, log ++ [c]).

(** [ProductDeduplicator.deduplicate_products] *)
Definition deduplicate_products (products_batch : list Product)
    : Eff (list Call) (list Master) :=
  (exact_matches <~ call (FindExact products_batch)
                         (find_exact_matches products_batch);;
   fuzzy_matches <~ call (FindFuzzy products_batch)
                         (find_fuzzy_matches products_batch);;
   ml_matches <~ call (MlResolve products_batch)
                      (ml_entity_resolution products_batch);;
   call (CreateMasters exact_matches fuzzy_matches ml_matches)
        (create_master_records exact_matches fuzzy_matches ml_matches))%eff.

End dedup.

(** Sample stages over products given as (sku, title): the exact stage pairs
    records with the same sku, the fuzzy stage pairs records where one title
    begins with the other, the probabilistic stage finds nothing when its
    model answers and raises when it does not, and a master record is made
    per matched pair. *)
Fixpoint all_pairs {A} (l : list A) : list (A * A) :=
  match l with
  | [] => []
  | x :: rest => ((λ y, (x, y)) <$> rest) ++ all_pairs rest
  end.

Definition sample_stages (model_answers : bool) : Stages :=
  {| Product := string * string;
     Master := (string * string) * (string * string);
     find_exact_matches := λ batch,
       inr (filter (λ p, p.1.1 = p.2.1) (all_pairs batch));
     find_fuzzy_matches := λ batch,
       inr (filter (λ p, String.prefix p.1.2 p.2.2 = true
                         ∨ String.prefix p.2.2 p.1.2 = true) (all_pairs batch));
     ml_entity_resolution := λ batch,
       if model_answers then inr [] else inl (Raised "TimeoutError");
     create_master_records := λ exact_matches fuzzy_matches ml_matches,
       inr (exact_matches ++ fuzzy_matches ++ ml_matches) |}.

End Deduplicator.

(** *** 5.1 The orchestrator *)

Module Orchestrator.

(** The collaborators of [ProductDataOrchestrator], all acting on one
    world [W]. *)
Class Parts (W : Type) := {
  Raw : Type;
  Processed : Type;
  ingest_all_sources : Eff W Raw;
  process_batch : Raw → Eff W Processed;
  store_processed_data : Processed → Eff W unit;
  update_serving_layer : Processed → Eff W unit;
  report_pipeline_success : Eff W unit;
  report_pipeline_failure : Exception → Eff W unit;
}.

Section pipeline.
Context {W : Type} `{Parts W}.

(** [ProductDataOrchestrator.run_pipeline]; the [await]s are sequential
    composition. *)
Definition run_pipeline : Eff W unit :=
  Eff.try_except
    (raw_data <~ ingest_all_sources;;
     processed_data <~ process_batch raw_data;;
     store_processed_data processed_data;;;
     update_serving_layer processed_data;;;
     report_pipeline_success)%eff
    (λ e, report_pipeline_failure e;;; Eff.raise e)%eff.
End pipeline.

(** A sample orchestrator over a world that is the list of monitoring
    reports: ingestion yields two records, the processing engine runs
    [deduplicate_products] with the sample stages, storing does nothing. *)
Definition sample_parts (model_answers : bool) : Parts (list string) :=
  {| Raw := list (string * string);
     Processed := list ((string * string) * (string * string));
     ingest_all_sources := Eff.ret [("A1", "Widget"); ("a-1", "Widget Deluxe")];
     process_batch := λ raw_data reports,
       ((@Deduplicator.deduplicate_products
           (Deduplicator.sample_stages model_answers) raw_data []).1, reports);
     store_processed_data := λ _, Eff.ret ();
     update_serving_layer := λ _, Eff.ret ();
     report_pipeline_success := Eff.modify (λ reports, reports ++ ["success"]);
     report_pipeline_failure := λ _, Eff.modify (λ reports, reports ++ ["failure"]) |}.

End Orchestrator.

(** *** 2.2 Idempotent batch processing *)

Module Idempotent.

(** [process_batch] is called on [self] but not defined in the document.
    It works on the part [Env] of the world that is neither the checkpoint
    storage nor the set of processed batches, and may raise. *)
Class Processing := {
  Data : Type;
  Result : Type;
  Env : Type;
  process_batch : Data → Eff Env Result;
}.

Section processor.
Context `{Processing}.

(** Modelled from the spec: the checkpoint statuses of the data model. *)
Inductive Status : Type := PENDING | PROCESSING | COMMITTED | FAILED.

(** Modelled from the spec: the checkpoint storage object is passed to
    the constructor and is not in the source.  It keeps, per batch_id, the
    result handed to [save_checkpoint], and the batch_ids that were marked
    with a status without a result; [save_checkpoint] is the one operation
    that the source calls on it.  When the store is unreachable a call on it
    raises and changes nothing. *)
Record CheckpointStorage : Type := {
  entries : gmap string Result;
  marked : gmap string Status;
  reachable : bool;
}.

Definition save_checkpoint (batch_id : string) (result : Result)
    : Eff CheckpointStorage unit :=
  λ cs, if reachable cs
        then (inr tt, {| entries := <[batch_id := result]> (entries cs);
                         marked := marked cs;
                         reachable := reachable cs |})
        else (inl (Raised "CommitFailure"), cs).

(** The two attributes assigned in [__init__]. *)
Record IdempotentProcessor : Type := {
  checkpoint_storage : CheckpointStorage;
  processed_batches : gset string;
}.

(** [IdempotentProcessor.__init__] *)
Definition init (checkpoint_storage : CheckpointStorage) : IdempotentProcessor :=
  {| checkpoint_storage := checkpoint_storage; processed_batches := ∅ |}.

(** Modelled from the spec: [get_cached_result] is called on [self] and
    is not in the source.  A re-submission returns the stored result, that
    is the one recorded by [save_checkpoint]. *)
Definition get_cached_result (batch_id : string) : Eff IdempotentProcessor Result :=
  λ self,
    if reachable (checkpoint_storage self) then
      match entries (checkpoint_storage self) !! batch_id with
      | Some result => (inr result, self)
      | None => (inl (Raised "KeyError"), self)
      end
    else (inl (Raised "CommitFailure"), self).

Definition on_storage {A} (m : Eff CheckpointStorage A) : Eff IdempotentProcessor A :=
  Eff.zoom checkpoint_storage
    (λ cs self, {| checkpoint_storage := cs;
                   processed_batches := processed_batches self |}) m.

Definition add_processed (batch_id : string) : Eff IdempotentProcessor unit :=
  Eff.modify (λ self, {| checkpoint_storage := checkpoint_storage self;
                         processed_batches := processed_batches self ∪ {[batch_id]} |}).

Definition on_self {A} (m : Eff IdempotentProcessor A) : Eff (IdempotentProcessor * Env) A :=
  Eff.zoom fst (λ self st, (self, st.2)) m.

Definition on_env {A} (m : Eff Env A) : Eff (IdempotentProcessor * Env) A :=
  Eff.zoom snd (λ env st, (st.1, env)) m.

(** The statements after the [if]: process, checkpoint, remember. *)
Definition process_and_checkpoint (batch_id : string) (batch_data : Data)
    : Eff (IdempotentProcessor * Env) Result :=
  (result <~ on_env (process_batch batch_data);;
   on_self (on_storage (save_checkpoint batch_id result));;;
   on_self (add_processed batch_id);;;
   Eff.ret result)%eff.

(** [IdempotentProcessor.process_batch_idempotent] *)
Definition process_batch_idempotent (batch_id : string) (batch_data : Data)
    : Eff (IdempotentProcessor * Env) Result :=
  λ st,
    if decide (batch_id ∈ processed_batches st.1)
    then on_self (get_cached_result batch_id) st
    else process_and_checkpoint batch_id batch_data st.

(** A sequence of submissions to one instance, outcomes in order. *)
Fixpoint submit_all (batches : list (string * Data)) (st : IdempotentProcessor * Env)
    : list (Exception + Result) * (IdempotentProcessor * Env) :=
  match batches with
  | [] => ([], st)
  | (batch_id, batch_data) :: rest =>
      let '(r, st') := process_batch_idempotent batch_id batch_data st in
      let '(rs, st'') := submit_all rest st' in
      (r :: rs, st'')
  end.

(** A batch_id is settled with result [r] in a state when the instance
    has it in [processed_batches] and the storage holds [r] for it. *)
Definition settled (st : IdempotentProcessor * Env) (batch_id : string) (r : Result)
    : Prop :=
  batch_id ∈ processed_batches st.1
  ∧ entries (checkpoint_storage st.1) !! batch_id = Some r
  ∧ reachable (checkpoint_storage st.1) = true.

(** Modelled from the spec: the status that the storage shows for a
    batch_id: [COMMITTED] when it holds a result saved for it, else the
    status it was marked with, if any. *)
Definition checkpoint_status (cs : CheckpointStorage) (batch_id : string)
    : option Status :=
  match entries cs !! batch_id with
  | Some _ => Some COMMITTED
  | None => marked cs !! batch_id
  end.
End processor.

(** A sample [process_batch]: the environment is the list of records
    applied so far, a batch is a list of records, processing appends the
    batch and returns the number of records applied so far; a batch that
    contains the empty record is malformed and raises. *)
Definition sample_processing : Processing :=
  {| Data := list string;
     Result := nat;
     Env := list string;
     process_batch := λ batch_data applied,
       if decide ("" ∈ batch_data)
       then (inl (Raised "ValueError"), applied)
       else (inr (length (applied ++ batch_data)), applied ++ batch_data) |}.

Definition empty_storage `{Processing} : CheckpointStorage :=
  {| entries := ∅; marked := ∅; reachable := true |}.

End Idempotent.

(** *** 3.2 The serving layer *)

Module Serving.

(** Rows of the [products] table, product dictionaries and their JSON
    text.  [dict], [json.dumps] and [json.loads] are library functions; each
    of them can raise. *)
Class Codec := {
  Product : Type;
  Row : Type;
  row_id : Row → Z;
  dict : Row → Exception + Product;
  json_dumps : Product → Exception + string;
  json_loads : string → Exception + Product;
}.

Section serving.
Context `{Codec}.

(** A Redis entry: the stored text and, for [SETEX], its time to live in
    seconds.  Expiry itself is not modelled. *)
Record CacheEntry : Type := {
  payload : string;
  ttl : option Z;
}.

(** One entry per request sent to a backend. *)
Inductive Request : Type :=
  | RedisGet (key : string)
  | RedisSetex (key : string) (seconds : Z) (value : string)
  | ClickhouseQuery (product_id : Z).

(** The two tiers that [get_product] uses and the requests seen so far. *)
Record Backends : Type := {
  redis_cache : gmap string CacheEntry;
  clickhouse : list Row;
  requests : list Request;
}.

Definition log_request (r : Request) (b : Backends) : Backends :=
  {| redis_cache := redis_cache b;
     clickhouse := clickhouse b;
     requests := requests b ++ [r] |}.

(** [redis.Redis.get]: the stored text or [None]. *)
Definition redis_get (key : string) : Eff Backends (option string) :=
  λ b, (inr (payload <$> redis_cache b !! key), log_request (RedisGet key) b).

(** [redis.Redis.setex] *)
Definition redis_setex (key : string) (seconds : Z) (value : string)
    : Eff Backends unit :=
  λ b, (inr tt,
        log_request (RedisSetex key seconds value)
          {| redis_cache := <[key := {| payload := value; ttl := Some seconds |}]>
                              (redis_cache b);
             clickhouse := clickhouse b;
             requests := requests b |}).

(** [SELECT * FROM products WHERE id = product_id], as [result_rows]. *)
Definition clickhouse_query (product_id : Z) : Eff Backends (list Row) :=
  λ b, (inr (filter (λ row, row_id row = product_id) (clickhouse b)),
        log_request (ClickhouseQuery product_id) b).

(** Python truth of the value returned by [get]: [None] and the empty
    text are false. *)
Definition truthy (cached : option string) : bool :=
  match cached with
  | Some text => bool_decide (text ≠ "")
  | None => false
  end.

Definition cache_key (product_id : Z) : string :=
  "product:" +:+ pretty product_id.

Definition lift {S A} (r : Exception + A) : Eff S A := λ s, (r, s).

(** [ProductServingLayer.get_product]; Python's [None] is [None]. *)
Definition get_product (product_id : Z) : Eff Backends (option Product) :=
  (cached <~ redis_get (cache_key product_id);;
   if truthy cached then
     product <~ lift (json_loads (default "" cached));;
     Eff.ret (Some product)
   else
     result_rows <~ clickhouse_query product_id;;
     match result_rows with
     | row :: _ =>
         product <~ lift (dict row);;
         text <~ lift (json_dumps product);;
         redis_setex (cache_key product_id) 3600 text;;;
         Eff.ret (Some product)
     | [] => Eff.ret None
     end)%eff.
End serving.

(** A sample codec: a row is an id with the JSON text of the product, a
    product is its JSON text, and a text that does not open a JSON object is
    refused by [json_loads]. *)
Definition sample_codec : Codec :=
  {| Product := string;
     Row := Z * string;
     row_id := fst;
     dict := λ row, inr row.2;
     json_dumps := λ product, inr product;
     json_loads := λ text,
       if String.prefix "{" text then inr text else inl (Raised "JSONDecodeError") |}.

(** A column value of a row: a number or a text. *)
Inductive Column : Type :=
  | IntCol (n : Z)
  | TextCol (text : string).

(** Python's [dict] on a row that is a tuple of column values.  Every
    element has to be a sequence of two items, a key and a value: a number
    is no sequence ([TypeError]), a text is the sequence of its characters
    and is accepted when it has two of them ([ValueError] otherwise). *)
Fixpoint dict_of_columns (row : list Column) (entries : gmap string string)
    : Exception + gmap string string :=
  match row with
  | [] => inr entries
  | IntCol _ :: _ => inl (Raised "TypeError")
  | TextCol (String key (String value EmptyString)) :: rest =>
      dict_of_columns rest (<[String key EmptyString := String value EmptyString]> entries)
  | TextCol _ :: _ => inl (Raised "ValueError")
  end.

(** The codec for rows as the ClickHouse client returns them, tuples of
    column values with the id in the first column, over any JSON functions. *)
Definition column_codec (dumps : gmap string string → Exception + string)
    (loads : string → Exception + gmap string string) : Codec :=
  {| Product := gmap string string;
     Row := list Column;
     row_id := λ row, match row with
                      | IntCol n :: _ => n
                      | _ => 0%Z
                      end;
     dict := λ row, dict_of_columns row ∅;
     json_dumps := dumps;
     json_loads := loads |}.

(** Product 7 is cached, products 7 and 8 are in the table. *)
Definition sample_tiers : @Backends sample_codec :=
  @Build_Backends sample_codec
    {[ "product:7" := {| payload := "{seven}"; ttl := Some 3600%Z |} ]}
    [(7%Z, "{7}"); (8%Z, "{8}")]
    [].

End Serving.

(** *** Master records *)

Module MasterRecord.

Section merge.
Context {Value : Type}.

(** Modelled from the spec: an element of the provenance of a canonical
    record, together with the canonical attributes that the contributing
    record carries ([create_master_records] is only called in the
    source). *)
Record Contributor : Type := {
  source_id : string;
  native_id : string;
  priority : nat;
  observed_at : Z;
  canonical_attributes : gmap string Value;
}.

(** The identity of the source record, as a number: a fixed order of the
    identities that owes nothing to the order of processing. *)
Definition identity_code (c : Contributor) : positive :=
  encode (source_id c, native_id c).

(** Modelled from the spec: [outranks a b] when [a] has the higher source
    priority (priority 1 is above priority 2), or the same priority and a
    more recent [observed_at].  For two records that tie on both, the spec
    names no winner and requires a result that does not depend on the order
    of processing: the record whose identity [(source_id, native_id)] comes
    first wins. *)
Definition outranks (a b : Contributor) : bool :=
  (priority a <? priority b)%nat
  || ((priority a =? priority b)%nat
      && ((observed_at b <? observed_at a)%Z
          || ((observed_at a =? observed_at b)%Z
              && (identity_code a <? identity_code b)%positive))).

(** Modelled from the spec: the contributor whose value is picked for
    [attribute]: among those that carry the attribute, one that no other
    outranks, found by going through the contributors in the order of
    processing. *)
Fixpoint pick (attribute : string) (contributors : list Contributor)
    : option Contributor :=
  match contributors with
  | [] => None
  | c :: rest =>
      match canonical_attributes c !! attribute with
      | None => pick attribute rest
      | Some _ =>
          match pick attribute rest with
          | Some d => if outranks d c then Some d else Some c
          | None => Some c
          end
      end
  end.

Definition merged_value (attribute : string) (contributors : list Contributor)
    : option Value :=
  c ← pick attribute contributors; canonical_attributes c !! attribute.

Definition attribute_names (contributors : list Contributor) : gset string :=
  ⋃ (dom ∘ canonical_attributes <$> contributors).

(** Modelled from the spec: the field-merge policy of the master-record
    builder, one picked value per attribute that any contributor
    carries. *)
Definition merge_attributes (contributors : list Contributor) : gmap string Value :=
  map_imap (λ attribute _, merged_value attribute contributors)
           (gset_to_gmap () (attribute_names contributors)).

(** Modelled from the spec: a source record is identified by
    [(source_id, native_id)], so a provenance set holds no two different
    contributors with one identity. *)
Definition distinct_identities (contributors : list Contributor) : Prop :=
  ∀ c d, c ∈ contributors → d ∈ contributors →
    source_id c = source_id d → native_id c = native_id d → c = d.
End merge.

Arguments Contributor : clear implicits.

(** The two source records of the example in the spec, and a second
    record of the first source that ties with the first record on priority
    and time. *)
Definition widget : Contributor string :=
  {| source_id := "api_primary"; native_id := "A1"; priority := 1; observed_at := 100;
     canonical_attributes := {[ "title" := "Widget"; "price" := "9.99" ]} |}.

Definition widget_deluxe : Contributor string :=
  {| source_id := "api_secondary"; native_id := "a-1"; priority := 2; observed_at := 200;
     canonical_attributes := {[ "title" := "Widget Deluxe"; "price" := "9.95" ]} |}.

Definition widget_mirror : Contributor string :=
  {| source_id := "api_primary"; native_id := "A-1"; priority := 1; observed_at := 100;
     canonical_attributes := {[ "title" := "Widget (mirror)" ]} |}.

End MasterRecord.

(** *** 1.1 The configured sources *)

Module Sources.

(** A value of a source configuration: a text or a number. *)
Inductive ConfigValue : Type :=
  | Str (text : string)
  | Int (n : Z).

(** [DATA_SOURCES] *)
Definition DATA_SOURCES : gmap string (gmap string ConfigValue) :=
  {[ "api_primary" := {[ "type" := Str "rest_api";
                         "url" := Str "https://api.primary.com/products";
                         "frequency" := Str "hourly";
                         "schema" := Str "products_v1";
                         "priority" := Int 1 ]};
     "api_secondary" := {[ "type" := Str "rest_api";
                           "url" := Str "https://api.secondary.com/items";
                           "frequency" := Str "daily";
                           "schema" := Str "items_v2";
                           "priority" := Int 2 ]};
     "file_feed" := {[ "type" := Str "s3_csv";
                       "location" := Str "s3://data-feeds/products/";
                       "frequency" := Str "weekly";
                       "schema" := Str "legacy_products";
                       "priority" := Int 3 ]} ]}.

End Sources.

(** *** 2.1 The Spark batch job *)

Module Spark.

(** The two methods of [DistributedProductProcessor] that [process_batch]
    calls and the document does not define.  They are transformations of
    DataFrames; a DataFrame is the list of its rows.  Failures while the job
    runs, and a job that overwrites a path it reads, are outside this
    model. *)
Class Job := {
  Row : Type;
  harmonize_schema : list Row → string → list Row;
  deduplicate_distributed : list Row → list Row;
}.

Section job.
Context `{Job}.

(** [d[key]] on a Python dictionary. *)
Definition getitem {S} (d : gmap string string) (key : string) : Eff S string :=
  λ s, match d !! key with
       | Some v => (inr v, s)
       | None => (inl (Raised "KeyError"), s)
       end.

(** [spark.read.parquet(path)] over the stored datasets; a path that is
    not there is refused at once. *)
Definition read_parquet (path : string) : Eff (gmap string (list Row)) (list Row) :=
  λ fs, match fs !! path with
        | Some df => (inr df, fs)
        | None => (inl (Raised "AnalysisException"), fs)
        end.

(** [df.write.mode("overwrite").parquet(path)] *)
Definition write_parquet_overwrite (df : list Row) (path : string)
    : Eff (gmap string (list Row)) unit :=
  λ fs, (inr (), <[path := df]> fs).

(** [DistributedProductProcessor.process_batch]; [union] keeps all rows of
    both DataFrames. *)
Definition process_batch (input_paths : gmap string string) (output_path : string)
    : Eff (gmap string (list Row)) unit :=
  (primary_path <~ getitem input_paths "primary";;
   df_primary <~ read_parquet primary_path;;
   secondary_path <~ getitem input_paths "secondary";;
   df_secondary <~ read_parquet secondary_path;;
   let df_primary_harmonized := harmonize_schema df_primary "primary" in
   let df_secondary_harmonized := harmonize_schema df_secondary "secondary" in
   let df_combined := df_primary_harmonized ++ df_secondary_harmonized in
   let df_deduplicated := deduplicate_distributed df_combined in
   write_parquet_overwrite df_deduplicated output_path)%eff.
End job.

(** A sample job on rows that are texts: harmonizing tags each row with
    the name of its source, deduplication drops repeated rows. *)
Definition sample_job : Job :=
  {| Row := string;
     harmonize_schema := λ df name, (λ row, name +:+ ":" +:+ row) <$> df;
     deduplicate_distributed := remove_dups |}.

End Spark.

(** *** 2.3 The stream processor *)

Module Stream.

(** What [process_stream] uses: the [value_deserializer] of the consumer
    and the three methods that the document calls on [self] without defining
    them, all acting on one world [W]. *)
Class Parts (W : Type) := {
  ProductData : Type;
  Processed : Type;
  value_deserializer : string → Exception + ProductData;
  is_duplicate : ProductData → Eff W bool;
  process_product : ProductData → Eff W Processed;
  send_to_downstream : Processed → Eff W unit;
}.

Section stream.
Context {W : Type} `{Parts W}.

(** [RealTimeProductProcessor.process_stream] on the messages that the
    consumer delivers, oldest first.  The consumer of the source never stops
    delivering; the list is the part of the topic seen so far. *)
Fixpoint process_stream (messages : list string) : Eff W unit :=
  match messages with
  | [] => Eff.ret ()
  | message :: rest =>
      (product_data <~ (λ w, (value_deserializer message, w));;
       duplicate <~ is_duplicate product_data;;
       (if negb duplicate then
          processed <~ process_product product_data;;
          send_to_downstream processed
        else Eff.ret ());;;
       process_stream rest)%eff
  end.
End stream.

(** Collaborators without state of their own: the world is the list of
    items sent downstream, [dup] and [process] are functions. *)
Definition pure_parts {D P : Type} (decode : string → Exception + D)
    (dup : D → bool) (process : D → P) : Parts (list P) :=
  {| ProductData := D;
     Processed := P;
     value_deserializer := decode;
     is_duplicate := λ d, Eff.ret (dup d);
     process_product := λ d, Eff.ret (process d);
     send_to_downstream := λ p sent, (inr (), sent ++ [p]) |}.

(** The decoded messages, when every message decodes. *)
Fixpoint decode_all {D : Type} (decode : string → Exception + D)
    (messages : list string) : option (list D) :=
  match messages with
  | [] => Some []
  | message :: rest =>
      match decode message, decode_all decode rest with
      | inr d, Some ds => Some (d :: ds)
      | _, _ => None
      end
  end.

End Stream.

(** *** Sample collaborators *)

Module Samples.

(** A coercion that refuses the empty text. *)
Definition picky_coercions : Harmonizer.Coercions :=
  {| Harmonizer.Value := string;
     Harmonizer.transform_value := λ v _,
       if bool_decide (v = "") then inl (Raised "ValueError") else inr v |}.

End Samples.

(** *** Runs of one processor instance *)

Module Runs.

(** The batch_ids of the submissions that returned normally, given the
    submissions and their outcomes in order. *)
Definition returned_ids `{Idempotent.Processing}
    (batches : list (string * Idempotent.Data))
    (outcomes : list (Exception + Idempotent.Result)) : gset string :=
  list_to_set
    (omap (λ bo : (string * Idempotent.Data) * (Exception + Idempotent.Result),
             match bo.2 with
             | inr _ => Some bo.1.1
             | inl _ => None
             end)
          (zip batches outcomes)).

(** Every remembered batch_id has a checkpoint in the storage. *)
Definition remembered_are_checkpointed `{Idempotent.Processing}
    (st : Idempotent.IdempotentProcessor * Idempotent.Env) : Prop :=
  ∀ batch_id,
    batch_id ∈ Idempotent.processed_batches st.1 →
    is_Some (Idempotent.entries (Idempotent.checkpoint_storage st.1) !! batch_id).

End Runs.

(** *** Scripted pipelines *)

Module Script.

(** The steps inside the [try] of [run_pipeline], by name, in order. *)
Definition pipeline_steps : list string :=
  ["ingest_all_sources"; "process_batch"; "store_processed_data";
   "update_serving_layer"; "report_pipeline_success"].

(** A scripted step: it writes its name to the journal, then returns or
    raises what the script says for it. *)
Definition step {A} (fails : string → option Exception) (name : string) (a : A)
    : Eff (list string) A :=
  λ journal, (match fails name with
              | Some e => inl e
              | None => inr a
              end, journal ++ [name]).

(** Collaborators of the orchestrator that only follow the script. *)
Definition scripted_parts (fails : string → option Exception)
    : Orchestrator.Parts (list string) :=
  {| Orchestrator.Raw := unit;
     Orchestrator.Processed := unit;
     Orchestrator.ingest_all_sources := step fails "ingest_all_sources" ();
     Orchestrator.process_batch := λ _, step fails "process_batch" ();
     Orchestrator.store_processed_data := λ _, step fails "store_processed_data" ();
     Orchestrator.update_serving_layer := λ _, step fails "update_serving_layer" ();
     Orchestrator.report_pipeline_success := step fails "report_pipeline_success" ();
     Orchestrator.report_pipeline_failure := λ _, step fails "report_pipeline_failure" () |}.

(** The names up to and including the first one that the script lets
    raise, with its exception. *)
Fixpoint run_until_failure (fails : string → option Exception) (names : list string)
    : list string * option Exception :=
  match names with
  | [] => ([], None)
  | name :: rest =>
      match fails name with
      | Some e => ([name], Some e)
      | None => let '(ran, failure) := run_until_failure fails rest in (name :: ran, failure)
      end
  end.

End Script.

(** ** Part II: properties *)

(** *** Schema harmonization *)

Section harmonizer_facts.
Import Harmonizer.
Context `{Coercions}.

Implicit Types (items : list (string * string)) (record harmonized : gmap string Value).

(** Only the fields that the loop looks up matter. *)
Lemma harmonize_items_agree items record1 record2 harmonized :
  (∀ source_field, source_field ∈ items.*2 →
     record1 !! source_field = record2 !! source_field) →
  harmonize_items items record1 harmonized = harmonize_items items record2 harmonized.
Proof.
  revert harmonized. induction items as [|[target source] rest IH]; intros acc Hag; [done|].
  simpl. rewrite <- (Hag source) by (simpl; left).
  destruct (record1 !! source) as [v|].
  - destruct (transform_value v target); [done|].
    apply IH. intros s Hs. apply Hag. simpl. by right.
  - apply IH. intros s Hs. apply Hag. simpl. by right.
Qed.

(** An exception leaving the loop was raised by [transform_value] on a
    field that the record has. *)
Lemma harmonize_items_raises items record harmonized e :
  harmonize_items items record harmonized = inl e →
  ∃ target_field source_field v,
    (target_field, source_field) ∈ items
    ∧ record !! source_field = Some v
    ∧ transform_value v target_field = inl e.
Proof.
  revert harmonized. induction items as [|[target source] rest IH]; intros acc; [done|].
  simpl. destruct (record !! source) as [v|] eqn:Hv.
  - destruct (transform_value v target) as [e'|v'] eqn:Ht.
    + intros [= <-]. exists target, source, v. split; [left|done].
    + intros Hr. destruct (IH _ Hr) as (t & s & w & Hin & ?).
      exists t, s, w. split; [by right|done].
  - intros Hr. destruct (IH _ Hr) as (t & s & w & Hin & ?).
    exists t, s, w. split; [by right|done].
Qed.

(** A target whose source fields are all missing keeps the value it had
    in the accumulator. *)
Lemma harmonize_items_skips items record harmonized result target_field :
  harmonize_items items record harmonized = inr result →
  (∀ source_field, (target_field, source_field) ∈ items → record !! source_field = None) →
  result !! target_field = harmonized !! target_field.
Proof.
  revert harmonized. induction items as [|[target source] rest IH]; intros acc; simpl.
  - by intros [= <-].
  - intros Hr Hmiss.
    assert (∀ s, (target_field, s) ∈ rest → record !! s = None) as Hrest
      by (intros s Hs; apply Hmiss; by right).
    destruct (record !! source) as [v|] eqn:Hv.
    + destruct (transform_value v target) as [e'|v'] eqn:Ht; [done|].
      rewrite (IH _ Hr Hrest). apply lookup_insert_ne. intros ->.
      specialize (Hmiss source). rewrite Hv in Hmiss.
      discriminate Hmiss. left.
    + by apply IH.
Qed.

(** A mapped field that the record has ends up under its target key. *)
Lemma harmonize_items_present items record harmonized result target_field source_field v :
  NoDup items.*1 →
  harmonize_items items record harmonized = inr result →
  (target_field, source_field) ∈ items →
  record !! source_field = Some v →
  ∃ v', transform_value v target_field = inr v' ∧ result !! target_field = Some v'.
Proof.
  revert harmonized. induction items as [|[target source] rest IH]; intros acc Hnd; simpl.
  - intros _ Hin. by apply elem_of_nil in Hin.
  - apply NoDup_cons in Hnd as [Hfresh Hnd].
    intros Hr Hin Hv. apply elem_of_cons in Hin as [[= -> ->]|Hin].
    + rewrite Hv in Hr.
      destruct (transform_value v target) as [e'|v'] eqn:Ht; [done|].
      exists v'. split; [done|].
      rewrite (harmonize_items_skips _ _ _ _ target Hr); [apply lookup_insert_eq|].
      intros s Hs. destruct Hfresh. apply list_elem_of_fmap. by exists (target, s).
    + destruct (record !! source) as [w|].
      * destruct (transform_value w target) as [e'|w'] eqn:Ht; [done|].
        eapply IH; eauto.
      * eapply IH; eauto.
Qed.

(** When [transform_value] returns on the fields that are there, the loop
    returns. *)
Lemma harmonize_items_returns items record harmonized :
  (∀ target_field source_field v,
     (target_field, source_field) ∈ items → record !! source_field = Some v →
     ∃ v', transform_value v target_field = inr v') →
  ∃ result, harmonize_items items record harmonized = inr result.
Proof.
  revert harmonized. induction items as [|[target source] rest IH]; intros acc Hok; simpl.
  - by eexists.
  - assert (∀ t s v, (t, s) ∈ rest → record !! s = Some v →
              ∃ v', transform_value v t = inr v') as Hrest
      by (intros t s v Hin; apply Hok; by right).
    destruct (record !! source) as [v|] eqn:Hv; [|by apply IH].
    destruct (Hok target source v) as [v' ->]; [left|done|]. by apply IH.
Qed.

(** Every schema of [SCHEMA_MAPPINGS] names each target once. *)
Lemma schema_mapping_targets_nodup source_schema :
  NoDup (schema_mapping source_schema).*1.
Proof.
  unfold schema_mapping, SCHEMA_MAPPINGS.
  rewrite lookup_insert. case_decide.
  - apply (bool_decide_unpack _). by vm_compute.
  - rewrite lookup_singleton. case_decide.
    + apply (bool_decide_unpack _). by vm_compute.
    + constructor.
Qed.

Lemma schema_mapping_unknown source_schema :
  SCHEMA_MAPPINGS !! source_schema = None → schema_mapping source_schema = [].
Proof. unfold schema_mapping. by intros ->. Qed.

Lemma nodup_targets_functional items target_field source1 source2 :
  NoDup items.*1 →
  (target_field, source1) ∈ items → (target_field, source2) ∈ items →
  source1 = source2.
Proof.
  induction items as [|[t s] rest IH]; simpl.
  - intros _ Hin. by apply elem_of_nil in Hin.
  - intros [Hfresh Hnd]%NoDup_cons H1 H2.
    apply elem_of_cons in H1 as [E1|H1]; apply elem_of_cons in H2 as [E2|H2];
      simplify_eq; try done.
    + destruct Hfresh. apply list_elem_of_fmap. by exists (t, source2).
    + destruct Hfresh. apply list_elem_of_fmap. by exists (t, source1).
    + by apply IH.
Qed.

Lemma harmonize_items_empty_record items harmonized :
  harmonize_items items ∅ harmonized = inr harmonized.
Proof.
  induction items as [|[t s] rest IH]; simpl; [done|]. by rewrite lookup_empty.
Qed.

(** A record with none of the looked-up fields harmonizes to the empty
    dictionary, whatever [transform_value] does. *)
Lemma harmonize_record_nothing_found record source_schema :
  (∀ source_field, source_field ∈ (schema_mapping source_schema).*2 →
     record !! source_field = None) →
  harmonize_record record source_schema = inr ∅.
Proof.
  intros Hnone. unfold harmonize_record. simpl.
  rewrite (harmonize_items_agree _ record ∅).
  - apply harmonize_items_empty_record.
  - intros s Hs. rewrite lookup_empty. by apply Hnone.
Qed.

(** The loop over a concatenation is the loop over the first part, then
    over the second. *)
Lemma harmonize_items_app items1 items2 record harmonized :
  harmonize_items (items1 ++ items2) record harmonized
  = match harmonize_items items1 record harmonized with
    | inr middle => harmonize_items items2 record middle
    | inl e => inl e
    end.
Proof.
  revert harmonized. induction items1 as [|[t s] rest IH]; intros acc; simpl; [done|].
  destruct (record !! s) as [v|]; [|apply IH].
  destruct (transform_value v t); [done|apply IH].
Qed.

Lemma harmonize_items_entry items record harmonized result target_field v' :
  NoDup items.*1 →
  harmonize_items items record harmonized = inr result →
  result !! target_field = Some v' →
  (∃ source_field v,
     (target_field, source_field) ∈ items
     ∧ record !! source_field = Some v
     ∧ transform_value v target_field = inr v')
  ∨ harmonized !! target_field = Some v'.
Proof.
  intros Hnd Hr Hv'.
  destruct (decide (Exists (λ item, item.1 = target_field ∧ is_Some (record !! item.2)) items))
    as [Hex|Hnone].
  - apply Exists_exists in Hex as ([t s] & Hin & Ht & [v Hv]). simpl in *. subst t.
    destruct (harmonize_items_present _ _ _ _ _ _ _ Hnd Hr Hin Hv) as (w & Hw & Hres).
    left. exists s, v. repeat split; [done..|]. congruence.
  - right. rewrite <- Hv'. symmetry.
    apply (harmonize_items_skips _ _ _ _ _ Hr). intros s Hin.
    destruct (record !! s) as [v|] eqn:Hv; [|done].
    destruct Hnone. apply Exists_exists. exists (target_field, s). by repeat split.
Qed.

(** ** C2 (amended): [harmonize_record] drops the fields it does not look
    up.  A mapped field that the record lacks is skipped: no error is
    produced for it and the harmonized record has no entry for it; the
    harmonized record has an entry exactly for the mapped fields that the
    record has, with the value that [transform_value] returns.
    [harmonize_record] returns whenever [transform_value] returns on the
    mapped fields that are there; it raises only an exception that
    [transform_value] raised on such a field, and the exception of the first
    field, in the order of the table, whose coercion raises leaves
    [harmonize_record] as it was raised. *)
Theorem C2_harmonize_skips_missing_fields record source_schema :
  (∀ field v,
     field ∉ (schema_mapping source_schema).*2 →
     harmonize_record (<[field := v]> record) source_schema
     = harmonize_record record source_schema)
  ∧ (∀ result,
       harmonize_record record source_schema = inr result →
       (∀ target_field source_field,
          (target_field, source_field) ∈ schema_mapping source_schema →
          record !! source_field = None →
          result !! target_field = None)
       ∧ (∀ target_field v',
            result !! target_field = Some v'
            ↔ ∃ source_field v,
                (target_field, source_field) ∈ schema_mapping source_schema
                ∧ record !! source_field = Some v
                ∧ transform_value v target_field = inr v'))
  ∧ ((∀ target_field source_field v,
        (target_field, source_field) ∈ schema_mapping source_schema →
        record !! source_field = Some v →
        ∃ v', transform_value v target_field = inr v') →
     ∃ result, harmonize_record record source_schema = inr result)
  ∧ (∀ e,
       harmonize_record record source_schema = inl e →
       ∃ target_field source_field v,
         (target_field, source_field) ∈ schema_mapping source_schema
         ∧ record !! source_field = Some v
         ∧ transform_value v target_field = inl e)
  ∧ (∀ before after target_field source_field v e,
       schema_mapping source_schema = before ++ (target_field, source_field) :: after →
       (∀ t s w, (t, s) ∈ before → record !! s = Some w →
                 ∃ w', transform_value w t = inr w') →
       record !! source_field = Some v →
       transform_value v target_field = inl e →
       harmonize_record record source_schema = inl e).
Proof.
  pose proof (schema_mapping_targets_nodup source_schema) as Hnd.
  split; [|split; [|split; [|split]]].
  - intros field v Hunknown. unfold harmonize_record. simpl.
    apply harmonize_items_agree. intros s Hs.
    apply lookup_insert_ne. by intros ->.
  - intros result Hr. split.
    + intros t s Hin Hmiss.
      rewrite (harmonize_items_skips _ _ _ _ t Hr); [apply lookup_empty|].
      intros s' Hin'.
      by rewrite (nodup_targets_functional _ _ _ _ Hnd Hin' Hin).
    + intros t v'. split.
      * intros Hv'.
        destruct (harmonize_items_entry _ _ _ _ _ _ Hnd Hr Hv') as [Hfound|Hacc]; [done|].
        by rewrite lookup_empty in Hacc.
      * intros (s & v & Hin & Hv & Ht).
        destruct (harmonize_items_present _ _ _ _ _ _ _ Hnd Hr Hin Hv) as (w & Hw & Hres).
        congruence.
  - apply harmonize_items_returns.
  - intros e. apply harmonize_items_raises.
  - intros before after t s v e Hsplit Hbefore Hv He. unfold harmonize_record. simpl.
    rewrite Hsplit, harmonize_items_app.
    destruct (harmonize_items_returns before record ∅ Hbefore) as [middle ->].
    simpl. by rewrite Hv, He.
Qed.

(** ** C10 (amended): [harmonize_record] returns a dictionary, without
    entries for the mapped fields that the record lacks, whenever
    [transform_value] returns on the mapped fields that the record has; for
    a schema name that [SCHEMA_MAPPINGS] does not know, and for a record
    with none of the mapped fields, the result is the empty dictionary
    whatever [transform_value] does; and [harmonize_record] raises exactly
    when [transform_value] raises on a mapped field that the record has, with
    an exception that [transform_value] raised. *)
Theorem C10_harmonize_record_returns record source_schema :
  ((∀ target_field source_field v,
      (target_field, source_field) ∈ schema_mapping source_schema →
      record !! source_field = Some v →
      ∃ v', transform_value v target_field = inr v') →
   ∃ result,
     harmonize_record record source_schema = inr result
     ∧ ∀ target_field source_field,
         (target_field, source_field) ∈ schema_mapping source_schema →
         record !! source_field = None →
         result !! target_field = None)
  ∧ (SCHEMA_MAPPINGS !! source_schema = None →
     harmonize_record record source_schema = inr ∅)
  ∧ ((∀ source_field, source_field ∈ (schema_mapping source_schema).*2 →
        record !! source_field = None) →
     harmonize_record record source_schema = inr ∅)
  ∧ ((∃ e, harmonize_record record source_schema = inl e)
     ↔ ∃ target_field source_field v e,
         (target_field, source_field) ∈ schema_mapping source_schema
         ∧ record !! source_field = Some v
         ∧ transform_value v target_field = inl e)
  ∧ (∀ e,
       harmonize_record record source_schema = inl e →
       ∃ target_field source_field v,
         (target_field, source_field) ∈ schema_mapping source_schema
         ∧ record !! source_field = Some v
         ∧ transform_value v target_field = inl e).
Proof.
  pose proof (schema_mapping_targets_nodup source_schema) as Hnd.
  split; [|split; [|split; [|split]]].
  - intros Hok.
    destruct (harmonize_items_returns (schema_mapping source_schema) record ∅ Hok)
      as [result Hr].
    exists result. split; [exact Hr|].
    intros t s Hin Hmiss.
    rewrite (harmonize_items_skips _ _ _ _ t Hr); [apply lookup_empty|].
    intros s' Hin'.
    by rewrite (nodup_targets_functional _ _ _ _ Hnd Hin' Hin).
  - intros Hunknown. apply harmonize_record_nothing_found.
    rewrite (schema_mapping_unknown _ Hunknown). intros s Hs.
    by apply elem_of_nil in Hs.
  - apply harmonize_record_nothing_found.
  - split.
    + intros [e He]. destruct (harmonize_items_raises _ _ _ _ He) as (t & s & v & ?).
      by exists t, s, v, e.
    + intros (t & s & v & e & Hin & Hv & He).
      destruct (harmonize_record record source_schema) as [e'|result] eqn:Hr;
        [by exists e'|].
      destruct (harmonize_items_present _ _ _ _ _ _ _ Hnd Hr Hin Hv) as (w & Hw & _).
      congruence.
  - intros e. apply harmonize_items_raises.
Qed.
End harmonizer_facts.

(** C2, as stated, fails: no mapped field is required.  Whatever field of
    whatever schema is chosen, the empty record lacks it, and the empty
    record is harmonized to the empty dictionary, not turned into an
    error. *)
Lemma C2_missing_field_is_not_quarantined :
  ¬ (∃ source_schema target_field source_field,
       (target_field, source_field) ∈ Harmonizer.schema_mapping source_schema
       ∧ ∀ record : gmap string string,
           record !! source_field = None →
           ∃ e, @Harmonizer.harmonize_record Harmonizer.plain_coercions
                  record source_schema = inl e).
Proof.
  intros (source_schema & target_field & source_field & _ & Hrequired).
  destruct (Hrequired ∅) as [e He]; [apply lookup_empty|].
  rewrite (@harmonize_record_nothing_found Harmonizer.plain_coercions) in He.
  - discriminate He.
  - intros s _. apply lookup_empty.
Qed.

Lemma C2_harmonize_skips_missing_fields_witness :
  @Harmonizer.harmonize_record Harmonizer.plain_coercions
     (<["colour" := "red"]> {[ "id" := "7" ]}) "products_v1"
  = @Harmonizer.harmonize_record Harmonizer.plain_coercions
      {[ "id" := "7" ]} "products_v1"
  ∧ (∀ result,
       @Harmonizer.harmonize_record Harmonizer.plain_coercions
         {[ "id" := "7" ]} "products_v1" = inr result →
       result !! "product_name" = None)
  ∧ @Harmonizer.harmonize_record Samples.picky_coercions
      {[ "id" := "7"; "price" := "" ]} "products_v1"
    = inl (Raised "ValueError").
Proof.
  destruct (@C2_harmonize_skips_missing_fields Harmonizer.plain_coercions
              {[ "id" := "7" ]} "products_v1") as (Hdrop & Hentries & _).
  destruct (@C2_harmonize_skips_missing_fields Samples.picky_coercions
              {[ "id" := "7"; "price" := "" ]} "products_v1")
    as (_ & _ & _ & _ & Hraises).
  split; [|split].
  - apply Hdrop. apply (bool_decide_unpack _). by vm_compute.
  - intros result Hr. destruct (Hentries result Hr) as [Hskip _].
    apply (Hskip "product_name" "title").
    + apply (bool_decide_unpack _). by vm_compute.
    + by vm_compute.
  - apply (Hraises [("product_id", "id"); ("product_name", "title")]
             [("product_category", "category")] "cost" "price" "").
    + by vm_compute.
    + intros t s w Hin Hw.
      apply elem_of_cons in Hin as [[= -> ->]|Hin];
        [|apply list_elem_of_singleton in Hin as [= -> ->]];
        vm_compute in Hw; simplify_eq. by exists "7".
    + by vm_compute.
    + by vm_compute.
Defined.

(** C10, as stated, fails: with a [transform_value] that refuses the empty
    text, the [products_v1] record [{"id": "7", "price": ""}] makes
    [harmonize_record] raise [ValueError]. *)
Lemma C10_harmonize_record_can_raise :
  ¬ (∀ (coercions : Harmonizer.Coercions)
       (record : gmap string Harmonizer.Value) source_schema,
       ∃ result, Harmonizer.harmonize_record record source_schema = inr result).
Proof.
  intros Hclaim.
  destruct (Hclaim Samples.picky_coercions {[ "id" := "7"; "price" := "" ]} "products_v1")
    as [result Hr].
  vm_compute in Hr. discriminate Hr.
Qed.

Lemma C10_harmonize_record_returns_witness :
  (∃ result,
     @Harmonizer.harmonize_record Samples.picky_coercions
       {[ "id" := "7" ]} "products_v1" = inr result
     ∧ ∀ target_field source_field,
         (target_field, source_field) ∈ Harmonizer.schema_mapping "products_v1" →
         ({[ "id" := "7" ]} : gmap string string) !! source_field = None →
         result !! target_field = None)
  ∧ @Harmonizer.harmonize_record Samples.picky_coercions
      {[ "id" := "7" ]} "legacy_products" = inr ∅.
Proof.
  destruct (@C10_harmonize_record_returns Samples.picky_coercions
              {[ "id" := "7" ]} "products_v1") as [Hret _].
  destruct (@C10_harmonize_record_returns Samples.picky_coercions
              {[ "id" := "7" ]} "legacy_products") as (_ & Hempty & _).
  split; [|apply Hempty; by vm_compute].
  apply Hret. intros t s v Hin Hv.
  destruct (decide (s = "id")) as [->|Hne].
  - vm_compute in Hv. injection Hv as <-. by exists "7".
  - by rewrite lookup_singleton_ne in Hv.
Defined.

(** ** C7: what the code does on a record that carries the fields of its
    own schema.  The loop reads each entry of [SCHEMA_MAPPINGS] as (target,
    source), so it looks for [id], [title], [price] and [category] in the
    record: a [products_v1] record with its native fields harmonizes to the
    empty dictionary, and a record keyed by the unified names comes out
    keyed by the source-specific ones. *)
Theorem C7_native_fields_are_lost :
  @Harmonizer.harmonize_record Harmonizer.plain_coercions
     {[ "product_id" := "42"; "product_name" := "Widget";
        "cost" := "9.99"; "product_category" := "tools" ]} "products_v1"
  = inr ∅
  ∧ @Harmonizer.harmonize_record Harmonizer.plain_coercions
      {[ "id" := "42"; "title" := "Widget" ]} "products_v1"
    = inr {[ "product_id" := "42"; "product_name" := "Widget" ]}.
Proof. split; by vm_compute. Qed.

(** *** Multi-stage deduplication *)

Section deduplicator_facts.
Import Deduplicator.
Context `{Stages}.

(** The four possible runs of [deduplicate_products]. *)
Lemma deduplicate_products_runs products_batch log :
  deduplicate_products products_batch log =
  match find_exact_matches products_batch with
  | inl err => (inl err, log ++ [FindExact products_batch])
  | inr exact_matches =>
    match find_fuzzy_matches products_batch with
    | inl err => (inl err, log ++ [FindExact products_batch; FindFuzzy products_batch])
    | inr fuzzy_matches =>
      match ml_entity_resolution products_batch with
      | inl err =>
          (inl err, log ++ [FindExact products_batch; FindFuzzy products_batch;
                            MlResolve products_batch])
      | inr ml_matches =>
          (create_master_records exact_matches fuzzy_matches ml_matches,
           log ++ [FindExact products_batch; FindFuzzy products_batch;
                   MlResolve products_batch;
                   CreateMasters exact_matches fuzzy_matches ml_matches])
      end
    end
  end.
Proof.
  unfold deduplicate_products, Eff.bind, call.
  destruct (find_exact_matches products_batch); [done|].
  destruct (find_fuzzy_matches products_batch); rewrite <- ?(assoc_L (++)); [done|].
  destruct (ml_entity_resolution products_batch); rewrite <- ?(assoc_L (++)); [done|].
  by rewrite <- ?(assoc_L (++)).
Qed.

(** ** X15: [deduplicate_products] calls the exact, the fuzzy and the
    probabilistic stage in that order, each with the complete
    [products_batch], and has no handler: the exception of the first stage
    that raises is what [deduplicate_products] raises, and neither a later
    stage nor [create_master_records] is called then; when the three stages
    return, their results are passed to [create_master_records], whose
    outcome is the outcome of [deduplicate_products]. *)
Theorem X15_first_raising_stage_ends_deduplication products_batch log :
  (∀ err,
     find_exact_matches products_batch = inl err →
     deduplicate_products products_batch log
     = (inl err, log ++ [FindExact products_batch]))
  ∧ (∀ exact_matches err,
       find_exact_matches products_batch = inr exact_matches →
       find_fuzzy_matches products_batch = inl err →
       deduplicate_products products_batch log
       = (inl err, log ++ [FindExact products_batch; FindFuzzy products_batch]))
  ∧ (∀ exact_matches fuzzy_matches err,
       find_exact_matches products_batch = inr exact_matches →
       find_fuzzy_matches products_batch = inr fuzzy_matches →
       ml_entity_resolution products_batch = inl err →
       deduplicate_products products_batch log
       = (inl err, log ++ [FindExact products_batch; FindFuzzy products_batch;
                           MlResolve products_batch]))
  ∧ (∀ exact_matches fuzzy_matches ml_matches,
       find_exact_matches products_batch = inr exact_matches →
       find_fuzzy_matches products_batch = inr fuzzy_matches →
       ml_entity_resolution products_batch = inr ml_matches →
       deduplicate_products products_batch log
       = (create_master_records exact_matches fuzzy_matches ml_matches,
          log ++ [FindExact products_batch; FindFuzzy products_batch;
                  MlResolve products_batch;
                  CreateMasters exact_matches fuzzy_matches ml_matches])).
Proof.
  rewrite deduplicate_products_runs. repeat split.
  - by intros err ->.
  - by intros e err -> ->.
  - by intros e f err -> -> ->.
  - by intros e f m -> -> ->.
Qed.
End deduplicator_facts.

Lemma X15_first_raising_stage_ends_deduplication_witness :
  @Deduplicator.deduplicate_products (Deduplicator.sample_stages false)
     [("A1", "Widget"); ("a-1", "Widget Deluxe")] []
  = (inl (Raised "TimeoutError"),
     [@Deduplicator.FindExact (Deduplicator.sample_stages false)
        [("A1", "Widget"); ("a-1", "Widget Deluxe")];
      @Deduplicator.FindFuzzy (Deduplicator.sample_stages false)
        [("A1", "Widget"); ("a-1", "Widget Deluxe")];
      @Deduplicator.MlResolve (Deduplicator.sample_stages false)
        [("A1", "Widget"); ("a-1", "Widget Deluxe")]]).
Proof.
  destruct (@X15_first_raising_stage_ends_deduplication
              (Deduplicator.sample_stages false)
              [("A1", "Widget"); ("a-1", "Widget Deluxe")] [])
    as (_ & _ & Hml & _).
  apply (Hml [] [(("A1", "Widget"), ("a-1", "Widget Deluxe"))]); by vm_compute.
Defined.

(** *** Idempotent batch processing *)

Section idempotent_facts.
Import Idempotent.
Context `{Processing}.

Implicit Types (st : IdempotentProcessor * Env) (batch_id : string).

Lemma process_batch_idempotent_replays batch_id batch_data st :
  batch_id ∈ processed_batches st.1 →
  process_batch_idempotent batch_id batch_data st
  = on_self (get_cached_result batch_id) st.
Proof. intros Hin. unfold process_batch_idempotent. by rewrite decide_True. Qed.

Lemma process_batch_idempotent_processes batch_id batch_data st :
  batch_id ∉ processed_batches st.1 →
  process_batch_idempotent batch_id batch_data st
  = process_and_checkpoint batch_id batch_data st.
Proof. intros Hin. unfold process_batch_idempotent. by rewrite decide_False. Qed.

(** The three ways through the processing branch. *)
Lemma process_and_checkpoint_runs batch_id batch_data st :
  process_and_checkpoint batch_id batch_data st =
  match process_batch batch_data st.2 with
  | (inl err, env') => (inl err, (st.1, env'))
  | (inr result, env') =>
      if reachable (checkpoint_storage st.1)
      then (inr result,
            ({| checkpoint_storage :=
                  {| entries := <[batch_id := result]> (entries (checkpoint_storage st.1));
                     marked := marked (checkpoint_storage st.1);
                     reachable := reachable (checkpoint_storage st.1) |};
                processed_batches := processed_batches st.1 ∪ {[batch_id]} |}, env'))
      else (inl (Raised "CommitFailure"), (st.1, env'))
  end.
Proof.
  destruct st as [[cs done_set] env].
  unfold process_and_checkpoint, Eff.bind, on_env, on_self, on_storage, Eff.zoom,
    save_checkpoint, add_processed, Eff.modify, Eff.ret. simpl.
  destruct (process_batch batch_data env) as [[err|result] env']; [done|]. simpl.
  by destruct (reachable cs).
Qed.

Lemma get_cached_result_reads_only batch_id st :
  (on_self (get_cached_result batch_id) st).2 = st.
Proof.
  destruct st as [self env]. unfold on_self, Eff.zoom, get_cached_result. simpl.
  destruct (reachable (checkpoint_storage self)); [|done].
  by destruct (entries (checkpoint_storage self) !! batch_id).
Qed.

Lemma returned_is_settled batch_id batch_data st r st' :
  process_batch_idempotent batch_id batch_data st = (inr r, st') →
  settled st' batch_id r.
Proof.
  unfold process_batch_idempotent. case_decide as Hin.
  - unfold on_self, Eff.zoom, get_cached_result.
    destruct (reachable (checkpoint_storage st.1)) eqn:Hup; [|by intros [= ]].
    destruct (entries (checkpoint_storage st.1) !! batch_id) as [r'|] eqn:Hr;
      [|by intros [= ]].
    intros [= <- <-]. by repeat split.
  - rewrite process_and_checkpoint_runs.
    destruct (process_batch batch_data st.2) as [[err|result] env']; [by intros [= ]|].
    destruct (reachable (checkpoint_storage st.1)) eqn:Hup; [|by intros [= ]].
    intros [= <- <-]. split; [|split]; simpl.
    + set_solver.
    + apply lookup_insert_eq.
    + done.
Qed.

Lemma settled_replay batch_id batch_data st r :
  settled st batch_id r →
  process_batch_idempotent batch_id batch_data st = (inr r, st).
Proof.
  intros (Hin & Hr & Hup). rewrite process_batch_idempotent_replays by done.
  unfold on_self, Eff.zoom, get_cached_result. rewrite Hup, Hr. by destruct st.
Qed.

Lemma settled_preserved batch_id r other_id other_data st :
  settled st batch_id r →
  settled (process_batch_idempotent other_id other_data st).2 batch_id r.
Proof.
  intros (Hin & Hr & Hup). unfold process_batch_idempotent. case_decide as Hother.
  - by rewrite get_cached_result_reads_only.
  - rewrite process_and_checkpoint_runs.
    destruct (process_batch other_data st.2) as [[err|result] env'];
      [split; [|split]; simpl; done|].
    rewrite Hup. split; [|split]; simpl; [set_solver| |done].
    rewrite lookup_insert_ne; [done|]. by intros ->.
Qed.

Lemma settled_after_submissions batch_id r later st :
  settled st batch_id r → settled (submit_all later st).2 batch_id r.
Proof.
  revert st. induction later as [|[other_id other_data] rest IH]; intros st Hs; [done|].
  simpl. pose proof (settled_preserved _ _ other_id other_data _ Hs) as Hs'.
  destruct (process_batch_idempotent other_id other_data st) as [out st1].
  specialize (IH st1 Hs'). by destruct (submit_all rest st1).
Qed.

(** ** C1 (amended): once a submission of a batch_id to an
    [IdempotentProcessor] has returned a result, every later submission of
    that batch_id to the same instance, after any other submissions to it,
    returns that result and changes nothing: the instance, the checkpoint
    storage and the environment of [process_batch] stay as they are, so the
    batch is not processed again and no second checkpoint is written. *)
Theorem C1_replay_on_same_instance batch_id batch_data st r st1 later again :
  process_batch_idempotent batch_id batch_data st = (inr r, st1) →
  process_batch_idempotent batch_id again (submit_all later st1).2
  = (inr r, (submit_all later st1).2).
Proof.
  intros Hfirst. apply settled_replay, settled_after_submissions.
  by eapply returned_is_settled.
Qed.

(** ** C9: the cached-result branch is taken exactly when batch_id is in
    [processed_batches]; the set is empty after construction, whatever the
    checkpoint storage holds, and a call adds at most its own batch_id to
    it; so a fresh instance processes every batch, also one whose batch_id
    the storage already has a checkpoint for: [process_batch] is run on
    the environment. *)
Theorem C9_idempotency_is_instance_local batch_id batch_data st cs env :
  (batch_id ∈ processed_batches st.1 →
     process_batch_idempotent batch_id batch_data st
     = on_self (get_cached_result batch_id) st)
  ∧ (batch_id ∉ processed_batches st.1 →
       process_batch_idempotent batch_id batch_data st
       = process_and_checkpoint batch_id batch_data st)
  ∧ processed_batches (init cs) = ∅
  ∧ processed_batches (process_batch_idempotent batch_id batch_data st).2.1
      ⊆ processed_batches st.1 ∪ {[batch_id]}
  ∧ process_batch_idempotent batch_id batch_data (init cs, env)
    = process_and_checkpoint batch_id batch_data (init cs, env)
  ∧ (process_batch_idempotent batch_id batch_data (init cs, env)).2.2
    = (process_batch batch_data env).2.
Proof.
  split; [apply process_batch_idempotent_replays|].
  split; [apply process_batch_idempotent_processes|].
  split; [done|]. split.
  - unfold process_batch_idempotent. case_decide.
    + rewrite get_cached_result_reads_only. set_solver.
    + rewrite process_and_checkpoint_runs.
      destruct (process_batch batch_data st.2) as [[err|result] env']; [simpl; set_solver|].
      destruct (reachable (checkpoint_storage st.1)); simpl; set_solver.
  - assert (process_batch_idempotent batch_id batch_data (init cs, env)
            = process_and_checkpoint batch_id batch_data (init cs, env)) as Hfresh
      by (apply process_batch_idempotent_processes; simpl; set_solver).
    split; [exact Hfresh|]. rewrite Hfresh, process_and_checkpoint_runs. simpl.
    destruct (process_batch batch_data env) as [[err|result] env']; [done|].
    by destruct (reachable cs).
Qed.

(** ** C6 (amended): for a batch_id that the instance has not
    remembered.  When [process_batch] raises, the same exception reaches the
    caller and the instance is as before: the checkpoint storage is not
    called, so no checkpoint of any status is written, and
    [processed_batches] is unchanged.  When [process_batch] returns and
    [save_checkpoint] raises, the exception of [save_checkpoint] reaches the
    caller, the storage is as [save_checkpoint] left it and batch_id is not
    added to [processed_batches].  A call raises in these two ways only; and
    after it raised, [processed_batches] is unchanged, the environment is
    left as [process_batch] left it, and a retry processes the whole batch
    again. *)
Theorem C6_failure_leaves_no_checkpoint batch_id batch_data st :
  batch_id ∉ processed_batches st.1 →
  (∀ err env',
     process_batch batch_data st.2 = (inl err, env') →
     process_batch_idempotent batch_id batch_data st = (inl err, (st.1, env')))
  ∧ (∀ result env' err cs',
       process_batch batch_data st.2 = (inr result, env') →
       save_checkpoint batch_id result (checkpoint_storage st.1) = (inl err, cs') →
       process_batch_idempotent batch_id batch_data st
       = (inl err,
          ({| checkpoint_storage := cs';
              processed_batches := processed_batches st.1 |}, env')))
  ∧ (∀ err st',
       process_batch_idempotent batch_id batch_data st = (inl err, st') →
       ((process_batch batch_data st.2).1 = inl err ∧ st'.1 = st.1
        ∨ ∃ result,
            (process_batch batch_data st.2).1 = inr result
            ∧ (save_checkpoint batch_id result (checkpoint_storage st.1)).1 = inl err)
       ∧ processed_batches st'.1 = processed_batches st.1
       ∧ st'.2 = (process_batch batch_data st.2).2
       ∧ process_batch_idempotent batch_id batch_data st'
         = process_and_checkpoint batch_id batch_data st').
Proof.
  intros Hnew. rewrite process_batch_idempotent_processes by done.
  unfold process_and_checkpoint, Eff.bind, on_env, on_self, on_storage, Eff.zoom,
    add_processed, Eff.modify, Eff.ret.
  destruct st as [self env]. simpl in *.
  split; [|split].
  - by intros err env' ->.
  - intros result env' err cs' -> Hsave. simpl. rewrite Hsave. by simpl.
  - intros err st'.
    destruct (process_batch batch_data env) as [[err'|result] env']; simpl.
    + intros [= <- <-]. simpl. split; [by left|]. split; [done|]. split; [done|].
      by apply process_batch_idempotent_processes.
    + destruct (save_checkpoint batch_id result (checkpoint_storage self))
        as [[err'|[]] cs'] eqn:Hsave; simpl; [|done].
      intros [= <- <-]. simpl.
      split; [right; exists result; split; [done|by rewrite Hsave]|].
      split; [done|]. split; [done|].
      by apply process_batch_idempotent_processes.
Qed.
End idempotent_facts.

(** C1, as stated, fails: instance one processes batch [b1] and writes its
    checkpoint; a second instance built on the same storage is handed [b1]
    again; the checkpoint is there, and the batch is processed a second
    time: the result is 2, not the stored 1, and the record is applied
    twice. *)
Lemma C1_committed_batch_is_reprocessed :
  ¬ (∀ (P : Idempotent.Processing) (self : Idempotent.IdempotentProcessor)
       (env : Idempotent.Env) batch_id batch_data r,
       Idempotent.checkpoint_status (Idempotent.checkpoint_storage self) batch_id
       = Some Idempotent.COMMITTED →
       Idempotent.entries (Idempotent.checkpoint_storage self) !! batch_id = Some r →
       Idempotent.reachable (Idempotent.checkpoint_storage self) = true →
       Idempotent.process_batch_idempotent batch_id batch_data (self, env)
       = (inr r, (self, env))).
Proof.
  intros Hclaim.
  pose (first := @Idempotent.process_batch_idempotent Idempotent.sample_processing
                   "b1" ["x"] (Idempotent.init Idempotent.empty_storage, [])).
  pose (restarted := @Idempotent.init Idempotent.sample_processing
                       (Idempotent.checkpoint_storage first.2.1)).
  specialize (Hclaim Idempotent.sample_processing restarted first.2.2 "b1" ["x"] 1%nat).
  assert (first.1 = inr 1%nat) as Hfirst by (vm_compute; done).
  assert ((@Idempotent.process_batch_idempotent Idempotent.sample_processing
             "b1" ["x"] (restarted, first.2.2)).1 = inr 2%nat) as Hsecond
    by (vm_compute; done).
  rewrite Hclaim in Hsecond; [discriminate Hsecond|by vm_compute..].
Qed.

Lemma C1_replay_on_same_instance_witness :
  let st1 := (@Idempotent.process_batch_idempotent Idempotent.sample_processing
                "b1" ["x"] (Idempotent.init Idempotent.empty_storage, [])).2 in
  let st2 := (@Idempotent.submit_all Idempotent.sample_processing
                [("b2", ["y"])] st1).2 in
  @Idempotent.process_batch_idempotent Idempotent.sample_processing "b1" ["z"] st2
  = (inr 1%nat, st2).
Proof.
  intros st1 st2.
  apply (@C1_replay_on_same_instance Idempotent.sample_processing
           "b1" ["x"] (Idempotent.init Idempotent.empty_storage, []) 1%nat st1
           [("b2", ["y"])] ["z"]).
  by vm_compute.
Defined.

Lemma C9_idempotency_is_instance_local_witness :
  let checkpointed : @Idempotent.CheckpointStorage Idempotent.sample_processing :=
    {| Idempotent.entries := {[ "b1" := 1%nat ]}; Idempotent.marked := ∅;
       Idempotent.reachable := true |} in
  @Idempotent.process_batch_idempotent Idempotent.sample_processing
    "b1" ["x"] (Idempotent.init checkpointed, ["x"])
  = (inr 2%nat,
     ({| Idempotent.checkpoint_storage :=
           {| Idempotent.entries := {[ "b1" := 2%nat ]}; Idempotent.marked := ∅;
              Idempotent.reachable := true |};
         Idempotent.processed_batches := {[ "b1" ]} |}, ["x"; "x"]))
  ∧ @Idempotent.process_batch_idempotent Idempotent.sample_processing
      "b1" ["x"]
      ({| Idempotent.checkpoint_storage := checkpointed;
          Idempotent.processed_batches := {[ "b1" ]} |}, ["x"])
    = (inr 1%nat,
       ({| Idempotent.checkpoint_storage := checkpointed;
           Idempotent.processed_batches := {[ "b1" ]} |}, ["x"])).
Proof.
  intros checkpointed. split.
  - destruct (@C9_idempotency_is_instance_local Idempotent.sample_processing
                "b1" ["x"] (Idempotent.init checkpointed, ["x"]) checkpointed ["x"])
      as (_ & Hprocess & _).
    rewrite Hprocess; [by vm_compute|]. apply (bool_decide_unpack _). by vm_compute.
  - destruct (@C9_idempotency_is_instance_local Idempotent.sample_processing
                "b1" ["x"]
                ({| Idempotent.checkpoint_storage := checkpointed;
                    Idempotent.processed_batches := {[ "b1" ]} |}, ["x"])
                checkpointed ["x"])
      as (Hreplay & _).
    rewrite Hreplay; [by vm_compute|]. apply (bool_decide_unpack _). by vm_compute.
Defined.

(** C6, as stated, fails: the batch with the malformed record makes
    [process_batch] raise; the storage, which could hold a mark for [b1], is
    not called, and afterwards it shows no checkpoint for [b1], so none with
    status FAILED. *)
Lemma C6_failed_batch_has_no_checkpoint :
  ¬ (∀ (P : Idempotent.Processing) (st st' : Idempotent.IdempotentProcessor * Idempotent.Env)
       batch_id batch_data err,
       batch_id ∉ Idempotent.processed_batches st.1 →
       Idempotent.process_batch_idempotent batch_id batch_data st = (inl err, st') →
       Idempotent.checkpoint_status (Idempotent.checkpoint_storage st'.1) batch_id
       = Some Idempotent.FAILED).
Proof.
  intros Hclaim.
  specialize (Hclaim Idempotent.sample_processing
                (Idempotent.init Idempotent.empty_storage, [])
                (Idempotent.init Idempotent.empty_storage, [])
                "b1" ["x"; ""] (Raised "ValueError")).
  assert (Idempotent.checkpoint_status
            (Idempotent.checkpoint_storage
               (@Idempotent.init Idempotent.sample_processing Idempotent.empty_storage,
                ([] : list string)).1)
            "b1" = Some Idempotent.FAILED) as Hfailed.
  { apply Hclaim; [|by vm_compute]. apply (bool_decide_unpack _). by vm_compute. }
  vm_compute in Hfailed. discriminate Hfailed.
Qed.

Lemma C6_failure_leaves_no_checkpoint_witness :
  let st := (@Idempotent.init Idempotent.sample_processing Idempotent.empty_storage,
             ["w"]) in
  @Idempotent.process_batch_idempotent Idempotent.sample_processing "b1" ["x"; ""] st
  = (inl (Raised "ValueError"), st)
  ∧ @Idempotent.process_batch_idempotent Idempotent.sample_processing "b1" ["x"; ""] st
    = @Idempotent.process_and_checkpoint Idempotent.sample_processing "b1" ["x"; ""] st.
Proof.
  intros st.
  destruct (@C6_failure_leaves_no_checkpoint Idempotent.sample_processing
              "b1" ["x"; ""] st) as (Hprocess & _ & Hafter).
  { apply (bool_decide_unpack _). by vm_compute. }
  assert (@Idempotent.process_batch_idempotent Idempotent.sample_processing
            "b1" ["x"; ""] st
          = (inl (Raised "ValueError"), st)) as Hrun.
  { apply (Hprocess (Raised "ValueError") ["w"]). by vm_compute. }
  split; [exact Hrun|]. by destruct (Hafter _ _ Hrun) as (_ & _ & _ & Hretry).
Defined.

(** *** The serving layer *)

Section serving_facts.
Import Serving.
Context `{Codec}.

(** When the cache misses and [dict] raises on the row that ClickHouse
    returned, the exception leaves [get_product] before anything is
    written. *)
Lemma get_product_dict_raises product_id (b : Backends) row rest err :
  truthy (payload <$> redis_cache b !! cache_key product_id) = false →
  filter (λ row, row_id row = product_id) (clickhouse b) = row :: rest →
  dict row = inl err →
  get_product product_id b
  = (inl err,
     {| redis_cache := redis_cache b;
        clickhouse := clickhouse b;
        requests := requests b ++ [RedisGet (cache_key product_id);
                                   ClickhouseQuery product_id] |}).
Proof.
  intros Hmiss Hfound Hdict.
  unfold get_product, Eff.bind, redis_get, clickhouse_query, lift, log_request.
  rewrite Hmiss. simpl. rewrite Hfound. simpl. rewrite Hdict.
  by rewrite <- !(assoc_L (++)).
Qed.

(** ** X16: the tiers of [get_product].  Redis is asked first.  When it
    holds a non-empty text under the key, the decoded text is returned, or
    the exception of [json.loads] raised, and the only request made is that
    [GET].  Otherwise ClickHouse is queried.  When it has a row and [dict]
    and [json.dumps] return, the product is written to Redis with a time to
    live of 3600 seconds and then returned; when [dict] or [json.dumps]
    raises, the exception leaves [get_product] and nothing is written; when
    ClickHouse has no row, nothing is written and [None] is returned. *)
Theorem X16_tiered_read product_id (b : Backends) :
  let key := cache_key product_id in
  let cached := payload <$> redis_cache b !! key in
  let found := filter (λ row, row_id row = product_id) (clickhouse b) in
  let queried :=
    {| redis_cache := redis_cache b;
       clickhouse := clickhouse b;
       requests := requests b ++ [RedisGet key; ClickhouseQuery product_id] |} in
  (∀ text, cached = Some text → text ≠ "" →
     get_product product_id b
     = (match json_loads text with
        | inl err => inl err
        | inr product => inr (Some product)
        end,
        {| redis_cache := redis_cache b;
           clickhouse := clickhouse b;
           requests := requests b ++ [RedisGet key] |}))
  ∧ (∀ row rest product text,
       truthy cached = false → found = row :: rest →
       dict row = inr product → json_dumps product = inr text →
       get_product product_id b
       = (inr (Some product),
          {| redis_cache :=
               <[key := {| payload := text; ttl := Some 3600%Z |}]> (redis_cache b);
             clickhouse := clickhouse b;
             requests := requests b ++ [RedisGet key; ClickhouseQuery product_id;
                                        RedisSetex key 3600 text] |}))
  ∧ (∀ row rest err,
       truthy cached = false → found = row :: rest →
       dict row = inl err →
       get_product product_id b = (inl err, queried))
  ∧ (∀ row rest product err,
       truthy cached = false → found = row :: rest →
       dict row = inr product → json_dumps product = inl err →
       get_product product_id b = (inl err, queried))
  ∧ (truthy cached = false → found = [] →
       get_product product_id b = (inr None, queried)).
Proof.
  intros key cached found queried. subst key cached found queried.
  unfold get_product, Eff.bind, redis_get, clickhouse_query, redis_setex, lift,
    Eff.ret, log_request.
  split; [|split; [|split; [|split]]].
  - intros text Hcached Hnonempty. rewrite Hcached. simpl.
    rewrite bool_decide_eq_true_2 by done.
    by destruct (json_loads text).
  - intros row rest product text Hmiss Hfound Hdict Hdumps.
    rewrite Hmiss. simpl. rewrite Hfound. simpl. rewrite Hdict, Hdumps. simpl.
    by rewrite <- !(assoc_L (++)).
  - intros row rest err. apply get_product_dict_raises.
  - intros row rest product err Hmiss Hfound Hdict Hdumps.
    rewrite Hmiss. simpl. rewrite Hfound. simpl. rewrite Hdict, Hdumps.
    by rewrite <- !(assoc_L (++)).
  - intros Hmiss Hfound. rewrite Hmiss. simpl. rewrite Hfound. simpl.
    by rewrite <- !(assoc_L (++)).
Qed.
End serving_facts.

Lemma X16_tiered_read_witness :
  let tiers := Serving.sample_tiers in
  (Serving.get_product 7 tiers).1 = inr (Some "{seven}")
  ∧ Serving.requests (Serving.get_product 7 tiers).2 = [Serving.RedisGet "product:7"]
  ∧ (Serving.get_product 8 tiers).1 = inr (Some "{8}")
  ∧ Serving.payload <$> Serving.redis_cache (Serving.get_product 8 tiers).2 !! "product:8"
    = Some "{8}"
  ∧ (Serving.get_product 9 tiers).1 = inr None
  ∧ Serving.redis_cache (Serving.get_product 9 tiers).2 = Serving.redis_cache tiers.
Proof.
  intros tiers.
  destruct (@X16_tiered_read Serving.sample_codec 7 tiers) as (Hhit & _).
  destruct (@X16_tiered_read Serving.sample_codec 8 tiers) as (_ & Hfill & _).
  destruct (@X16_tiered_read Serving.sample_codec 9 tiers) as (_ & _ & _ & _ & Hnone).
  rewrite (Hhit "{seven}") by (vm_compute; done).
  rewrite (Hfill (8%Z, "{8}") [] "{8}" "{8}") by (vm_compute; done).
  rewrite Hnone by (vm_compute; done).
  repeat split; by vm_compute.
Defined.

(** ** C8: what the code does when the cache misses and ClickHouse has the
    row.  A row is a tuple of column values and the id compared in the [WHERE]
    clause is a number, so [dict] is applied to a tuple that holds a number:
    it raises [TypeError].  [get_product] raises it after the [GET] and the
    query, nothing is written to Redis and no product is returned. *)
Theorem C8_found_row_is_not_cached dumps loads product_id
    (b : @Serving.Backends (Serving.column_codec dumps loads)) n columns rest :
  Serving.truthy
    (Serving.payload <$> Serving.redis_cache b !! Serving.cache_key product_id) = false →
  filter (λ row, Serving.row_id row = product_id) (Serving.clickhouse b)
  = (Serving.IntCol n :: columns) :: rest →
  Serving.get_product product_id b
  = (inl (Raised "TypeError"),
     {| Serving.redis_cache := Serving.redis_cache b;
        Serving.clickhouse := Serving.clickhouse b;
        Serving.requests :=
          Serving.requests b ++ [Serving.RedisGet (Serving.cache_key product_id);
                                 Serving.ClickhouseQuery product_id] |}).
Proof.
  intros Hmiss Hfound.
  by apply (@get_product_dict_raises (Serving.column_codec dumps loads)
              product_id b (Serving.IntCol n :: columns) rest).
Qed.

Lemma C8_found_row_is_not_cached_witness :
  @Serving.get_product (Serving.column_codec (λ _, inr "{}") (λ _, inr ∅)) 7
     (@Serving.Build_Backends (Serving.column_codec (λ _, inr "{}") (λ _, inr ∅))
        ∅ [[Serving.IntCol 7; Serving.TextCol "Widget"]] [])
  = (inl (Raised "TypeError"),
     @Serving.Build_Backends (Serving.column_codec (λ _, inr "{}") (λ _, inr ∅))
       ∅ [[Serving.IntCol 7; Serving.TextCol "Widget"]]
       [Serving.RedisGet "product:7"; Serving.ClickhouseQuery 7]).
Proof.
  apply (@C8_found_row_is_not_cached (λ _, inr "{}") (λ _, inr ∅) 7
           (@Serving.Build_Backends (Serving.column_codec (λ _, inr "{}") (λ _, inr ∅))
              ∅ [[Serving.IntCol 7; Serving.TextCol "Widget"]] [])
           7 [Serving.TextCol "Widget"] []); by vm_compute.
Defined.

(** *** Master records *)

Section merge_facts.
Import MasterRecord.
Context {Value : Type}.

Implicit Types (c d : Contributor Value) (contributors : list (Contributor Value)).

Lemma outranks_spec c d :
  outranks c d = true
  ↔ (priority c < priority d)%nat
    ∨ (priority c = priority d
       ∧ ((observed_at d < observed_at c)%Z
          ∨ (observed_at c = observed_at d
             ∧ (identity_code c < identity_code d)%positive))).
Proof.
  unfold outranks.
  rewrite orb_true_iff, andb_true_iff, orb_true_iff, andb_true_iff,
    Nat.ltb_lt, Nat.eqb_eq, Z.ltb_lt, Z.eqb_eq, Pos.ltb_lt. done.
Qed.

Lemma outranks_false c d :
  outranks c d = false
  ↔ (priority d < priority c)%nat
    ∨ (priority c = priority d
       ∧ ((observed_at c < observed_at d)%Z
          ∨ (observed_at c = observed_at d
             ∧ (identity_code d ≤ identity_code c)%positive))).
Proof. rewrite <- not_true_iff_false, outranks_spec. lia. Qed.

(** The picked contributor carries the attribute and is outranked by no
    contributor that carries it. *)
Lemma pick_spec attribute contributors c :
  pick attribute contributors = Some c →
  c ∈ contributors
  ∧ is_Some (canonical_attributes c !! attribute)
  ∧ ∀ d, d ∈ contributors → is_Some (canonical_attributes d !! attribute) →
         outranks d c = false.
Proof.
  revert c. induction contributors as [|x rest IH]; intros c; simpl; [done|].
  destruct (canonical_attributes x !! attribute) as [v|] eqn:Hx.
  - destruct (pick attribute rest) as [best|] eqn:Hbest.
    + destruct (IH best eq_refl) as (Hin & Hhas & Htop).
      destruct (outranks best x) eqn:Hcmp; intros [= <-].
      * split; [by right|]. split; [done|].
        intros d [->|Hd]%elem_of_cons Hd'; [|by apply Htop].
        apply outranks_spec in Hcmp. apply outranks_false. lia.
      * split; [by left|]. split; [by rewrite Hx|].
        intros d [->|Hd]%elem_of_cons Hd'.
        { apply outranks_false. lia. }
        specialize (Htop d Hd Hd').
        apply outranks_false in Hcmp, Htop. apply outranks_false. lia.
    + intros [= <-]. split; [by left|]. split; [by rewrite Hx|].
      intros d [->|Hd]%elem_of_cons Hd'.
      { apply outranks_false. lia. }
      clear IH. exfalso. revert Hd Hd' Hbest. clear.
      induction rest as [|y rest IH]; intros Hd Hd' Hbest;
        [by apply elem_of_nil in Hd|].
      simpl in Hbest. apply elem_of_cons in Hd as [->|Hd].
      * destruct Hd' as [w Hw]. rewrite Hw in Hbest.
        by destruct (pick attribute rest) as [b|]; [destruct (outranks b y)|].
      * destruct (canonical_attributes y !! attribute); [|by apply IH].
        by destruct (pick attribute rest) as [b|]; [destruct (outranks b y)|].
  - intros Hc. destruct (IH c Hc) as (Hin & Hhas & Htop).
    split; [by right|]. split; [done|].
    intros d [->|Hd]%elem_of_cons Hd'; [|by apply Htop].
    rewrite Hx in Hd'. by destruct Hd'.
Qed.

Lemma pick_none attribute contributors d :
  pick attribute contributors = None →
  d ∈ contributors → canonical_attributes d !! attribute = None.
Proof.
  induction contributors as [|y rest IH]; intros Hbest Hd;
    [by apply elem_of_nil in Hd|].
  simpl in Hbest. apply elem_of_cons in Hd as [->|Hd].
  - destruct (canonical_attributes y !! attribute); [|done].
    by destruct (pick attribute rest) as [b|]; [destruct (outranks b y)|].
  - destruct (canonical_attributes y !! attribute); [|by apply IH].
    by destruct (pick attribute rest) as [b|]; [destruct (outranks b y)|].
Qed.

Lemma elem_of_attribute_names attribute contributors :
  attribute ∈ attribute_names contributors
  ↔ ∃ c, c ∈ contributors ∧ is_Some (canonical_attributes c !! attribute).
Proof.
  unfold attribute_names. rewrite elem_of_union_list. split.
  - intros (X & HX & Hin). apply list_elem_of_fmap in HX as (c & -> & Hc).
    exists c. split; [done|]. by apply elem_of_dom.
  - intros (c & Hc & Hhas). exists (dom (canonical_attributes c)). split.
    + apply list_elem_of_fmap. by exists c.
    + by apply elem_of_dom.
Qed.

Lemma merge_attributes_lookup attribute contributors :
  merge_attributes contributors !! attribute = merged_value attribute contributors.
Proof.
  unfold merge_attributes. rewrite map_lookup_imap, lookup_gset_to_gmap.
  destruct (decide (attribute ∈ attribute_names contributors)) as [Hin|Hout].
  - by rewrite option_guard_True.
  - rewrite option_guard_False by done. simpl. unfold merged_value.
    destruct (pick attribute contributors) as [c|] eqn:Hpick; [|done].
    destruct (pick_spec _ _ _ Hpick) as (Hc & Hhas & _).
    destruct Hout. apply elem_of_attribute_names. by exists c.
Qed.

(** In a provenance set the picked contributor does not depend on the
    order. *)
Lemma pick_permutation attribute contributors contributors' :
  contributors ≡ₚ contributors' →
  distinct_identities contributors →
  pick attribute contributors = pick attribute contributors'.
Proof.
  intros Hperm Hids.
  destruct (pick attribute contributors) as [c|] eqn:Hpick;
    destruct (pick attribute contributors') as [c'|] eqn:Hpick'; simpl.
  - destruct (pick_spec _ _ _ Hpick) as (Hc & Hhas & Htop).
    destruct (pick_spec _ _ _ Hpick') as (Hc' & Hhas' & Htop').
    rewrite <- Hperm in Hc'.
    assert (outranks c' c = false) as H1 by by apply Htop.
    assert (outranks c c' = false) as H2 by (apply Htop'; [by rewrite <- Hperm|done]).
    apply outranks_false in H1, H2.
    assert (identity_code c = identity_code c') as Hcode by lia.
    apply (inj encode) in Hcode. injection Hcode as Hs Hn.
    by rewrite (Hids c c' Hc Hc' Hs Hn).
  - destruct (pick_spec _ _ _ Hpick) as (Hc & [v Hv] & _).
    rewrite Hperm in Hc. by rewrite (pick_none _ _ _ Hpick' Hc) in Hv.
  - destruct (pick_spec _ _ _ Hpick') as (Hc' & [v Hv] & _).
    rewrite <- Hperm in Hc'. by rewrite (pick_none _ _ _ Hpick Hc') in Hv.
  - done.
Qed.

(** ** C4: every attribute of the merged record is the value carried by a
    contributor that carries the attribute and has the highest source
    priority among those that do (priority 1 before priority 2) and, among
    those of that priority, the most recent [observed_at]; every attribute
    that some contributor carries is merged; and for a provenance set, where
    different contributors have different identities, the merged attributes
    are the same for every processing order of the contributors. *)
Theorem C4_merge_is_order_independent contributors contributors' :
  (∀ attribute v,
     merge_attributes contributors !! attribute = Some v →
     ∃ c, c ∈ contributors
          ∧ canonical_attributes c !! attribute = Some v
          ∧ ∀ d, d ∈ contributors → is_Some (canonical_attributes d !! attribute) →
                 (priority c ≤ priority d)%nat
                 ∧ (priority c = priority d → (observed_at d ≤ observed_at c)%Z)
                 ∧ outranks d c = false)
  ∧ (∀ attribute c,
       c ∈ contributors → is_Some (canonical_attributes c !! attribute) →
       is_Some (merge_attributes contributors !! attribute))
  ∧ (contributors ≡ₚ contributors' →
     distinct_identities contributors →
     merge_attributes contributors = merge_attributes contributors').
Proof.
  split; [|split].
  - intros attribute v. rewrite merge_attributes_lookup. unfold merged_value.
    destruct (pick attribute contributors) as [c|] eqn:Hpick; [|done]. simpl.
    intros Hv. destruct (pick_spec _ _ _ Hpick) as (Hc & _ & Htop).
    exists c. split; [done|]. split; [done|]. intros d Hd Hhas.
    pose proof (Htop d Hd Hhas) as Hnot. split; [|split; [|done]];
      apply outranks_false in Hnot; lia.
  - intros attribute c Hc [v Hv]. rewrite merge_attributes_lookup. unfold merged_value.
    destruct (pick attribute contributors) as [best|] eqn:Hpick.
    + by destruct (pick_spec _ _ _ Hpick) as (_ & Hhas & _).
    + by rewrite (pick_none _ _ _ Hpick Hc) in Hv.
  - intros Hperm Hids. apply map_eq. intros attribute.
    rewrite !merge_attributes_lookup. unfold merged_value.
    by rewrite (pick_permutation _ _ _ Hperm Hids).
Qed.
End merge_facts.

Lemma C4_merge_is_order_independent_witness :
  MasterRecord.merge_attributes
    [MasterRecord.widget; MasterRecord.widget_deluxe; MasterRecord.widget_mirror]
  = MasterRecord.merge_attributes
      [MasterRecord.widget_mirror; MasterRecord.widget_deluxe; MasterRecord.widget]
  ∧ MasterRecord.merge_attributes [MasterRecord.widget_deluxe; MasterRecord.widget]
      !! "title" = Some "Widget".
Proof.
  destruct (@C4_merge_is_order_independent string
              [MasterRecord.widget; MasterRecord.widget_deluxe; MasterRecord.widget_mirror]
              [MasterRecord.widget_mirror; MasterRecord.widget_deluxe; MasterRecord.widget])
    as (_ & _ & Horder).
  split; [|by vm_compute].
  apply Horder.
  - etrans; [apply Permutation_swap|]. etrans; [apply perm_skip, Permutation_swap|].
    apply Permutation_swap.
  - intros c d Hc Hd Hs Hn.
    apply elem_of_cons in Hc as [->|Hc]; [|apply elem_of_cons in Hc as [->|Hc];
      [|apply list_elem_of_singleton in Hc as ->]];
    (apply elem_of_cons in Hd as [->|Hd]; [|apply elem_of_cons in Hd as [->|Hd];
      [|apply list_elem_of_singleton in Hd as ->]]);
    first [ exfalso; vm_compute in Hs; discriminate Hs
          | exfalso; vm_compute in Hn; discriminate Hn
          | reflexivity ].
Defined.

(** ** Part III: further properties of the code *)

(** *** More on schema harmonization *)

Section harmonizer_more.
Import Harmonizer.
Context `{Coercions}.

Implicit Types (items : list (string * string)) (record harmonized : gmap string Value).

(** The three values that [schema_mapping] can take. *)
Lemma schema_mapping_cases source_schema :
  schema_mapping source_schema = schema_mapping "products_v1"
  ∨ schema_mapping source_schema = schema_mapping "items_v2"
  ∨ schema_mapping source_schema = [].
Proof.
  unfold schema_mapping, SCHEMA_MAPPINGS.
  rewrite lookup_insert. case_decide as H1; [subst; by left|].
  rewrite lookup_singleton. case_decide as H2; [subst; right; by left|].
  by right; right.
Qed.

(** No schema writes a key that some schema looks up. *)
Lemma targets_are_not_sources schema1 schema2 field :
  field ∈ (schema_mapping schema1).*1 → field ∉ (schema_mapping schema2).*2.
Proof.
  destruct (schema_mapping_cases schema1) as [->|[->| ->]];
    destruct (schema_mapping_cases schema2) as [->|[->| ->]];
    intros Hin Hin'; vm_compute in Hin, Hin';
    repeat (apply elem_of_cons in Hin as [->|Hin]; [|]);
    try (by apply elem_of_nil in Hin);
    repeat (apply elem_of_cons in Hin' as [[=]|Hin']);
    by apply elem_of_nil in Hin'.
Qed.

(** ** X1: when [harmonize_record] returns, the dictionary has value [v']
    under a key exactly when the table of the schema pairs that key with a
    field that the record has and [transform_value] turns the value of that
    field, for that key, into [v']. *)
Theorem X1_harmonize_record_entries record source_schema result target_field v' :
  harmonize_record record source_schema = inr result →
  (result !! target_field = Some v'
   ↔ ∃ source_field v,
       (target_field, source_field) ∈ schema_mapping source_schema
       ∧ record !! source_field = Some v
       ∧ transform_value v target_field = inr v').
Proof.
  intros Hr. pose proof (schema_mapping_targets_nodup source_schema) as Hnd. split.
  - intros Hv'.
    destruct (harmonize_items_entry _ _ _ _ _ _ Hnd Hr Hv') as [Hfound|Hacc]; [done|].
    by rewrite lookup_empty in Hacc.
  - intros (s & v & Hin & Hv & Ht).
    destruct (harmonize_items_present _ _ _ _ _ _ _ Hnd Hr Hin Hv) as (w & Hw & Hres).
    congruence.
Qed.

(** ** X2: harmonizing a harmonized record loses everything: the keys
    that any schema writes are keys that no schema looks up, so a second
    pass, under the same or another schema, returns the empty dictionary. *)
Theorem X2_second_pass_is_empty record schema1 schema2 result :
  harmonize_record record schema1 = inr result →
  harmonize_record result schema2 = inr ∅.
Proof.
  intros Hr. apply harmonize_record_nothing_found. intros s Hs.
  destruct (result !! s) as [v'|] eqn:Hv'; [|done].
  destruct (harmonize_items_entry _ _ _ _ _ _
              (schema_mapping_targets_nodup schema1) Hr Hv')
    as [(s' & v & Hin & _)|Hacc]; [|by rewrite lookup_empty in Hacc].
  destruct (targets_are_not_sources schema1 schema2 s); [|done].
  apply list_elem_of_fmap. by exists (s, s').
Qed.

(** ** X3: [harmonize_record] raises the exception of the first field, in
    the order of the table, whose coercion raises: when [transform_value]
    returns on the fields before it that the record has, what it raises on
    that field is what [harmonize_record] raises. *)
Theorem X3_first_failing_field_raises record source_schema before after
    target_field source_field v e :
  schema_mapping source_schema = before ++ (target_field, source_field) :: after →
  (∀ t s w, (t, s) ∈ before → record !! s = Some w →
            ∃ w', transform_value w t = inr w') →
  record !! source_field = Some v →
  transform_value v target_field = inl e →
  harmonize_record record source_schema = inl e.
Proof.
  intros Hsplit Hbefore Hv He. unfold harmonize_record. simpl.
  rewrite Hsplit, harmonize_items_app.
  destruct (harmonize_items_returns before record ∅ Hbefore) as [middle ->].
  simpl. by rewrite Hv, He.
Qed.
End harmonizer_more.

Lemma X1_harmonize_record_entries_witness :
  ∃ source_field v,
    ("product_id", source_field) ∈ Harmonizer.schema_mapping "products_v1"
    ∧ ({[ "id" := "7" ]} : gmap string string) !! source_field = Some v
    ∧ @Harmonizer.transform_value Harmonizer.plain_coercions v "product_id" = inr "7".
Proof.
  apply (@X1_harmonize_record_entries Harmonizer.plain_coercions
           {[ "id" := "7" ]} "products_v1" {[ "product_id" := "7" ]} "product_id" "7");
    by vm_compute.
Defined.

Lemma X2_second_pass_is_empty_witness :
  @Harmonizer.harmonize_record Harmonizer.plain_coercions
     {[ "product_id" := "7" ]} "items_v2" = inr ∅.
Proof.
  apply (@X2_second_pass_is_empty Harmonizer.plain_coercions
           {[ "id" := "7" ]} "products_v1" "items_v2").
  by vm_compute.
Defined.

Lemma X3_first_failing_field_raises_witness :
  @Harmonizer.harmonize_record Samples.picky_coercions
     {[ "id" := "7"; "price" := ""; "category" := "" ]} "products_v1"
  = inl (Raised "ValueError").
Proof.
  apply (@X3_first_failing_field_raises Samples.picky_coercions
           {[ "id" := "7"; "price" := ""; "category" := "" ]} "products_v1"
           [("product_id", "id"); ("product_name", "title")]
           [("product_category", "category")] "cost" "price" "").
  - by vm_compute.
  - intros t s w Hin Hw.
    apply elem_of_cons in Hin as [[= -> ->]|Hin];
      [|apply list_elem_of_singleton in Hin as [= -> ->]];
      vm_compute in Hw; simplify_eq. by exists "7".
  - by vm_compute.
  - by vm_compute.
Defined.

(** *** The configured sources against the schema mappings *)

Section sources_facts.
Import Harmonizer Sources.
Context `{Coercions}.

(** ** X4: of the sources configured in [DATA_SOURCES], [file_feed] is
    the one whose schema has no entry in [SCHEMA_MAPPINGS]; every record
    harmonized under that schema comes out as the empty dictionary, whatever
    [transform_value] does. *)
Theorem X4_file_feed_has_no_mapping source config schema
    (record : gmap string Value) :
  DATA_SOURCES !! source = Some config →
  config !! "schema" = Some (Str schema) →
  (SCHEMA_MAPPINGS !! schema = None ↔ source = "file_feed")
  ∧ (source = "file_feed" → harmonize_record record schema = inr ∅).
Proof.
  unfold DATA_SOURCES. rewrite lookup_insert. case_decide as H1.
  { intros [= <-] Hs. vm_compute in Hs. injection Hs as <-. subst source.
    split; [split; by vm_compute|done]. }
  rewrite lookup_insert. case_decide as H2.
  { intros [= <-] Hs. vm_compute in Hs. injection Hs as <-. subst source.
    split; [split; by vm_compute|done]. }
  rewrite lookup_singleton. case_decide as H3; [|done].
  intros [= <-] Hs. vm_compute in Hs. injection Hs as <-. subst source.
  split; [split; by vm_compute|]. intros _.
  apply harmonize_record_nothing_found. intros s Hs. vm_compute in Hs.
  by apply elem_of_nil in Hs.
Qed.
End sources_facts.

Lemma X4_file_feed_has_no_mapping_witness :
  @Harmonizer.harmonize_record Harmonizer.plain_coercions
     {[ "sku" := "A1"; "name" := "Widget" ]} "legacy_products" = inr ∅.
Proof.
  destruct (@X4_file_feed_has_no_mapping Harmonizer.plain_coercions "file_feed"
              {[ "type" := Sources.Str "s3_csv";
                 "location" := Sources.Str "s3://data-feeds/products/";
                 "frequency" := Sources.Str "weekly";
                 "schema" := Sources.Str "legacy_products";
                 "priority" := Sources.Int 3 ]}
              "legacy_products" {[ "sku" := "A1"; "name" := "Widget" ]})
    as [_ Hempty]; [by vm_compute..|].
  by apply Hempty.
Defined.

(** *** More on idempotent batch processing *)

Section idempotent_more.
Import Idempotent Runs.
Context `{Processing}.

Implicit Types (st : IdempotentProcessor * Env) (batch_id : string).

(** What one call does to [processed_batches]. *)
Lemma processed_batches_step batch_id batch_data st :
  processed_batches (process_batch_idempotent batch_id batch_data st).2.1
  = processed_batches st.1
    ∪ match (process_batch_idempotent batch_id batch_data st).1 with
      | inr _ => {[batch_id]}
      | inl _ => ∅
      end.
Proof.
  unfold process_batch_idempotent. case_decide as Hin.
  - rewrite get_cached_result_reads_only.
    destruct (on_self (get_cached_result batch_id) st).1; set_solver.
  - rewrite process_and_checkpoint_runs.
    destruct (process_batch batch_data st.2) as [[err|result] env']; simpl; [set_solver|].
    destruct (reachable (checkpoint_storage st.1)); simpl; set_solver.
Qed.

Lemma remembered_are_checkpointed_step batch_id batch_data st :
  remembered_are_checkpointed st →
  remembered_are_checkpointed (process_batch_idempotent batch_id batch_data st).2.
Proof.
  intros Hinv. unfold process_batch_idempotent. case_decide as Hin.
  - by rewrite get_cached_result_reads_only.
  - rewrite process_and_checkpoint_runs.
    destruct (process_batch batch_data st.2) as [[err|result] env']; [done|].
    destruct (reachable (checkpoint_storage st.1)); [|done].
    intros b Hb. simpl in *. apply elem_of_union in Hb as [Hb|Hb].
    + destruct (decide (batch_id = b)) as [->|Hne].
      * rewrite lookup_insert_eq. by eexists.
      * rewrite lookup_insert_ne by done. by apply Hinv.
    + apply elem_of_singleton in Hb as ->. rewrite lookup_insert_eq. by eexists.
Qed.

Lemma remembered_are_checkpointed_run batches st :
  remembered_are_checkpointed st →
  remembered_are_checkpointed (submit_all batches st).2.
Proof.
  revert st. induction batches as [|[b d] rest IH]; intros st Hinv; [done|].
  simpl. pose proof (remembered_are_checkpointed_step b d st Hinv) as Hstep.
  destruct (process_batch_idempotent b d st) as [out st1].
  specialize (IH st1 Hstep). by destruct (submit_all rest st1).
Qed.

(** ** X5: a batch_id is added to [processed_batches] only after its
    checkpoint was saved: on an instance made by [__init__] and driven by
    any sequence of submissions, every remembered batch_id has a checkpoint
    in the storage, so the cached-result branch never fails for a missing
    checkpoint. *)
Theorem X5_remembered_batches_are_checkpointed cs env batches batch_id batch_data :
  let st := (submit_all batches (init cs, env)).2 in
  batch_id ∈ processed_batches st.1 →
  is_Some (entries (checkpoint_storage st.1) !! batch_id)
  ∧ (process_batch_idempotent batch_id batch_data st).1 ≠ inl (Raised "KeyError").
Proof.
  intros st Hin.
  assert (remembered_are_checkpointed st) as Hinv.
  { apply remembered_are_checkpointed_run. intros b Hb. simpl in Hb. set_solver. }
  destruct (Hinv batch_id Hin) as [r Hr]. split; [by exists r|].
  rewrite process_batch_idempotent_replays by done.
  unfold on_self, Eff.zoom, get_cached_result. rewrite Hr.
  by destruct (reachable (checkpoint_storage st.1)).
Qed.

(** ** X6: after any sequence of submissions to an instance, the
    remembered batch_ids are the ones remembered before together with the
    ones of the submissions that returned normally: a submission that raised
    leaves no trace in [processed_batches], and nothing is ever removed. *)
Theorem X6_processed_batches_after_run batches st :
  processed_batches (submit_all batches st).2.1
  = processed_batches st.1 ∪ returned_ids batches (submit_all batches st).1.
Proof.
  revert st. induction batches as [|[b d] rest IH]; intros st.
  - unfold returned_ids. simpl. set_solver.
  - simpl. pose proof (processed_batches_step b d st) as Hstep.
    destruct (process_batch_idempotent b d st) as [out st1]. simpl in Hstep.
    specialize (IH st1). destruct (submit_all rest st1) as [outs st2]. simpl in *.
    rewrite IH, Hstep. unfold returned_ids. simpl.
    destruct out; simpl; set_solver.
Qed.
End idempotent_more.

Lemma X5_remembered_batches_are_checkpointed_witness :
  let st := (@Idempotent.submit_all Idempotent.sample_processing
               [("b1", ["x"]); ("b2", [""]); ("b3", ["y"])]
               (Idempotent.init Idempotent.empty_storage, [])).2 in
  is_Some (Idempotent.entries (Idempotent.checkpoint_storage st.1) !! "b3")
  ∧ "b2" ∉ Idempotent.processed_batches st.1.
Proof.
  intros st. split.
  - apply (@X5_remembered_batches_are_checkpointed Idempotent.sample_processing
             Idempotent.empty_storage [] [("b1", ["x"]); ("b2", [""]); ("b3", ["y"])]
             "b3" ["z"]).
    apply (bool_decide_unpack _). by vm_compute.
  - apply (bool_decide_unpack _). by vm_compute.
Defined.

(** *** More on the serving layer *)

Section serving_more.
Import Serving.
Context `{Codec}.

Lemma cache_key_inj product_id other :
  cache_key product_id = cache_key other → product_id = other.
Proof.
  unfold cache_key. intros Heq. apply (inj pretty).
  revert Heq. generalize (pretty product_id) (pretty other).
  induction "product:" as [|ch prefix IH]; intros text1 text2; simpl; [done|].
  intros [= Heq]. by apply IH.
Qed.

(** The state after [get_product]: the table is as before and the cache
    differs at most at the key of the product. *)
Lemma get_product_state product_id (b : Backends) :
  clickhouse (get_product product_id b).2 = clickhouse b
  ∧ (redis_cache (get_product product_id b).2 = redis_cache b
     ∨ ∃ text,
         redis_cache (get_product product_id b).2
         = <[cache_key product_id := {| payload := text; ttl := Some 3600%Z |}]>
             (redis_cache b)).
Proof.
  unfold get_product, Eff.bind, redis_get, clickhouse_query, redis_setex, lift,
    Eff.ret, log_request. simpl.
  destruct (truthy (payload <$> redis_cache b !! cache_key product_id)).
  - destruct (json_loads _); simpl; by split; [|left].
  - match goal with
    | |- context [match ?rows with [] => _ | _ :: _ => _ end] =>
        destruct rows as [|row rest]
    end; simpl.
    + split; [done|by left].
    + destruct (dict row) as [err|product]; simpl; [split; [done|by left]|].
      destruct (json_dumps product) as [err|text]; simpl; [split; [done|by left]|].
      split; [done|right; by eexists].
Qed.

(** ** X7: [get_product] never changes the ClickHouse table, never
    removes a cache entry, and leaves the cache entries of all other
    products as they are: distinct product ids have distinct cache keys. *)
Theorem X7_get_product_touches_one_key product_id (b : Backends) :
  clickhouse (get_product product_id b).2 = clickhouse b
  ∧ dom (redis_cache b) ⊆ dom (redis_cache (get_product product_id b).2)
  ∧ ∀ other, other ≠ product_id →
      redis_cache (get_product product_id b).2 !! cache_key other
      = redis_cache b !! cache_key other.
Proof.
  destruct (get_product_state product_id b) as [Htable [Hsame|[text Hset]]];
    (split; [done|]); rewrite ?Hsame, ?Hset.
  - split; [done|]. by intros.
  - split; [rewrite dom_insert_L; set_solver|].
    intros other Hne. apply lookup_insert_ne. intros Heq.
    by apply cache_key_inj in Heq.
Qed.

End serving_more.


(** *** More on the orchestrator *)

Section orchestrator_more.
Import Orchestrator.
Context {W : Type} `{Parts W}.

(** ** X9: [run_pipeline] never turns a failure into a normal return:
    when it returns, each of the five steps inside the [try] has returned,
    one after the other on the world left by the one before, and the world
    at the end is the one left by [report_pipeline_success]. *)
Theorem X9_normal_return_means_all_steps_returned (w w' : W) :
  run_pipeline w = (inr (), w') →
  ∃ raw_data w1 processed_data w2 w3 w4,
    ingest_all_sources w = (inr raw_data, w1)
    ∧ process_batch raw_data w1 = (inr processed_data, w2)
    ∧ store_processed_data processed_data w2 = (inr (), w3)
    ∧ update_serving_layer processed_data w3 = (inr (), w4)
    ∧ report_pipeline_success w4 = (inr (), w').
Proof.
  unfold run_pipeline, Eff.try_except, Eff.bind, Eff.raise.
  destruct (ingest_all_sources w) as [[e|raw] w1] eqn:H1.
  { intros Hr. exfalso. revert Hr. destruct (is_Exception e); [|done].
    by destruct (report_pipeline_failure e w1) as [[e'|[]] v']. }
  destruct (process_batch raw w1) as [[e|processed] w2] eqn:H2.
  { intros Hr. exfalso. revert Hr. destruct (is_Exception e); [|done].
    by destruct (report_pipeline_failure e w2) as [[e'|[]] v']. }
  destruct (store_processed_data processed w2) as [[e|[]] w3] eqn:H3.
  { intros Hr. exfalso. revert Hr. destruct (is_Exception e); [|done].
    by destruct (report_pipeline_failure e w3) as [[e'|[]] v']. }
  destruct (update_serving_layer processed w3) as [[e|[]] w4] eqn:H4.
  { intros Hr. exfalso. revert Hr. destruct (is_Exception e); [|done].
    by destruct (report_pipeline_failure e w4) as [[e'|[]] v']. }
  destruct (report_pipeline_success w4) as [[e|[]] w5] eqn:H5.
  { intros Hr. exfalso. revert Hr. destruct (is_Exception e); [|done].
    by destruct (report_pipeline_failure e w5) as [[e'|[]] v']. }
  intros [= <-]. by exists raw, w1, processed, w2, w3, w4.
Qed.
End orchestrator_more.

Lemma X9_normal_return_means_all_steps_returned_witness :
  ∃ processed_data reports,
    @Orchestrator.process_batch _ (Orchestrator.sample_parts true)
      [("A1", "Widget"); ("a-1", "Widget Deluxe")] [] = (inr processed_data, reports).
Proof.
  destruct (@X9_normal_return_means_all_steps_returned (list string)
              (Orchestrator.sample_parts true) [] ["success"])
    as (raw & w1 & processed & w2 & w3 & w4 & H1 & H2 & _); [by vm_compute|].
  vm_compute in H1. injection H1 as <- <-. by exists processed, w2.
Defined.


(** *** The Spark batch job *)

Section spark_facts.
Import Spark.
Context `{Job}.

(** The runs of [process_batch]: a missing key or a missing path raises
    before anything is written. *)
Lemma process_batch_runs input_paths output_path (fs : gmap string (list Row)) :
  process_batch input_paths output_path fs =
  match input_paths !! "primary" with
  | None => (inl (Raised "KeyError"), fs)
  | Some primary_path =>
    match fs !! primary_path with
    | None => (inl (Raised "AnalysisException"), fs)
    | Some df_primary =>
      match input_paths !! "secondary" with
      | None => (inl (Raised "KeyError"), fs)
      | Some secondary_path =>
        match fs !! secondary_path with
        | None => (inl (Raised "AnalysisException"), fs)
        | Some df_secondary =>
            (inr (),
             <[output_path :=
                 deduplicate_distributed
                   (harmonize_schema df_primary "primary"
                    ++ harmonize_schema df_secondary "secondary")]> fs)
        end
      end
    end
  end.
Proof.
  unfold process_batch, Eff.bind, getitem, read_parquet, write_parquet_overwrite.
  destruct (input_paths !! "primary") as [p|]; [|done].
  destruct (fs !! p) as [dfp|]; [|done].
  destruct (input_paths !! "secondary") as [q|]; [|done].
  by destruct (fs !! q) as [dfq|].
Qed.

End spark_facts.


(** *** The stream processor *)

Section stream_facts.
Import Stream.
Context {W : Type} `{Parts W}.

Lemma process_stream_app (older newer : list string) (w : W) :
  process_stream (older ++ newer) w
  = match process_stream older w with
    | (inr _, w1) => process_stream newer w1
    | (inl e, w1) => (inl e, w1)
    end.
Proof.
  revert w. induction older as [|message rest IH]; intros w; simpl; [done|].
  unfold Eff.bind. destruct (value_deserializer message) as [e|product_data]; [done|].
  destruct (is_duplicate product_data w) as [[e|duplicate] w1]; [done|].
  destruct duplicate; simpl.
  - apply IH.
  - destruct (process_product product_data w1) as [[e|processed] w2]; [done|].
    destruct (send_to_downstream processed w2) as [[e|[]] w3]; [done|].
    apply IH.
Qed.

End stream_facts.

Section pure_stream_facts.
Import Stream.
Context {D P : Type} (decode : string → Exception + D) (dup : D → bool) (process : D → P).

Lemma pure_stream_forwards messages decoded (sent : list P) :
  decode_all decode messages = Some decoded →
  @process_stream _ (pure_parts decode dup process) messages sent
  = (inr (), sent ++ (process <$> filter (λ d, dup d = false) decoded)).
Proof.
  revert decoded sent. induction messages as [|message rest IH]; intros decoded sent; simpl.
  - intros [= <-]. simpl. by rewrite (right_id_L [] (++)).
  - unfold Eff.bind, Eff.ret. simpl.
    destruct (decode message) as [e|d] eqn:Hd; [done|].
    destruct (decode_all decode rest) as [ds|] eqn:Hds; [|done].
    intros [= <-]. rewrite filter_cons. case_decide as Hdup; simpl in Hdup.
    + rewrite Hdup. simpl. rewrite (IH ds) by done.
      by rewrite <- (assoc_L (++)).
    + apply not_false_is_true in Hdup. rewrite Hdup. simpl. by apply IH.
Qed.

(** ** X13: with a duplicate test and a processing step that are
    functions, and a downstream that collects what it is sent: when every
    message decodes, what is sent downstream is the processed form of each
    message that is not a duplicate, once each, in the order of arrival, and
    nothing is sent for a duplicate; a message that does not decode ends the
    loop with its exception after the older messages were handled. *)
Theorem X13_pure_stream_forwards_non_duplicates older decoded (sent : list P) :
  decode_all decode older = Some decoded →
  @process_stream _ (pure_parts decode dup process) older sent
  = (inr (), sent ++ (process <$> filter (λ d, dup d = false) decoded))
  ∧ ∀ message newer e,
      decode message = inl e →
      @process_stream _ (pure_parts decode dup process) (older ++ message :: newer) sent
      = (inl e, sent ++ (process <$> filter (λ d, dup d = false) decoded)).
Proof.
  intros Hdecoded. split; [by apply pure_stream_forwards|].
  intros message newer e He.
  rewrite (@process_stream_app _ (pure_parts decode dup process)).
  rewrite (pure_stream_forwards _ _ _ Hdecoded). simpl.
  unfold Eff.bind. simpl. by rewrite He.
Qed.
End pure_stream_facts.

Lemma X7_get_product_touches_one_key_witness :
  Serving.redis_cache (Serving.get_product 8 Serving.sample_tiers).2 !! "product:7"
  = Serving.redis_cache Serving.sample_tiers !! "product:7".
Proof.
  destruct (@X7_get_product_touches_one_key Serving.sample_codec 8 Serving.sample_tiers)
    as (_ & _ & Hother).
  apply (Hother 7%Z). by vm_compute.
Defined.

Lemma X13_pure_stream_forwards_non_duplicates_witness :
  let refuse_empty := λ message : string,
    if bool_decide (message = "") then inl (Raised "JSONDecodeError") else inr message in
  @Stream.process_stream _
     (Stream.pure_parts refuse_empty (λ d, bool_decide (d = "seen")) String.length)
     ["a"; "seen"; "bb"; "seen"] [7%nat]
  = (inr (), [7; 1; 2]%nat).
Proof.
  intros refuse_empty.
  destruct (@X13_pure_stream_forwards_non_duplicates string nat refuse_empty
              (λ d, bool_decide (d = "seen")) String.length
              ["a"; "seen"; "bb"; "seen"] ["a"; "seen"; "bb"; "seen"] [7%nat])
    as [Hsent _]; [by vm_compute|].
  exact Hsent.
Defined.
